(** * ShaderSystem: shader binding and uniform synchronisation

    A shallow embedding of [ShaderSystem] (the renderer plugin that binds
    shaders and keeps their uniforms in sync with the GPU) together with the
    properties its design relies on.

    JavaScript objects that the code only indexes ([cache], [glPrograms],
    [uniformGroups], [syncUniforms]) are finite maps; objects that the code
    walks with [for ... in] ([uniforms], [uniformData], [attributeData]) are
    association lists kept in iteration order.  Objects that are shared and
    mutated (shaders, programs, uniform groups, GL programs) live in a store
    and are named by references, so that [===] on objects is equality of
    references.  Property lookups see own properties only: names inherited
    from [Object.prototype] are not modelled. *)

From stdpp Require Import gmap strings list fin_maps.
From Stdlib Require Import ZArith.

Local Open Scope string_scope.

(** ** JavaScript objects walked in iteration order *)

Module JSObject.

Section Props.
Context {A : Type}.

(** [o[k]]: the value of own property [k], [None] standing for
    [undefined]. *)
Fixpoint get (o : list (string * A)) (k : string) : option A :=
  match o with
  | [] => None
  | (k', v) :: o' => if decide (k' = k) then Some v else get o' k
  end.

(** [o[k] = v]: an existing property keeps its place in the iteration
    order, a new one goes last (the names written here, [globals] and the
    names of attributes and uniforms, are never array indices, which
    JavaScript would visit first). *)
Fixpoint set (o : list (string * A)) (k : string) (v : A)
  : list (string * A) :=
  match o with
  | [] => [(k, v)]
  | (k', v') :: o' =>
      if decide (k' = k) then (k, v) :: o' else (k', v') :: set o' k v
  end.

(** The property names a [for (const i in o)] loop visits. *)
Definition keys (o : list (string * A)) : list string := o.*1.

End Props.

(** [Array.prototype.join]. *)
Definition join (sep : string) (strings : list string) : string :=
  String.concat sep strings.

End JSObject.

(** ** Data model *)

(** References into the store. *)
Abbreviation ShaderRef := nat (only parsing).
Abbreviation ProgramRef := nat (only parsing).
Abbreviation GroupRef := nat (only parsing).
Abbreviation GLProgramRef := nat (only parsing).

(** Opaque values owned by the WebGL context. *)
Abbreviation WebGLContext := nat (only parsing).
Abbreviation WebGLProgram := nat (only parsing).
Abbreviation WebGLLocation := nat (only parsing).

(** A value held by a member of a uniform group. *)
Inductive UniformValue : Type :=
| UNumber (x : Z)
| UArray (xs : list Z)
| UTexture (unit : nat)
| UGroup (g : GroupRef).

(** An entry of [program.uniformData]: what the program source declares. *)
Record UniformDecl : Type := mkUniformDecl {
  type : string;
  size : nat
}.

(** An entry of [program.attributeData]. *)
Record AttributeDecl : Type := mkAttributeDecl {
  location : Z
}.

(** An entry of [glProgram.uniformData]. *)
Record GLUniform : Type := mkGLUniform {
  gl_location : option WebGLLocation;
  gl_value : UniformValue
}.

(** [UniformGroup]: the fields the system reads and writes.  [syncUniforms]
    maps a program id to the routine generated for this group. *)
Module UniformGroup.
Record t {SyncFunc : Type} : Type := mk {
  uniforms : list (string * UniformValue);
  id : nat;
  static : bool;
  dirtyId : Z;
  syncUniforms : gmap nat SyncFunc
}.
Arguments t : clear implicits.
Arguments mk {_}.

(** [group.uniforms = us] and [group.syncUniforms = m]. *)
Definition set_uniforms {F} (G : t F) (us : list (string * UniformValue))
  : t F := mk us (id G) (static G) (dirtyId G) (syncUniforms G).
Definition set_syncUniforms {F} (G : t F) (m : gmap nat F) : t F :=
  mk (uniforms G) (id G) (static G) (dirtyId G) m.
End UniformGroup.

(** [GLProgram]: the fields the system reads and writes.  [program] is the
    WebGL handle; [uniformGroups] records, per group id, the [dirtyId] last
    synchronised against this program. *)
Module GLProgram.
Record t : Type := mk {
  program : WebGLProgram;
  uniformData : list (string * GLUniform);
  uniformGroups : gmap nat Z
}.

(** Modelled from the spec: the constructor of [GLProgram] is not part of
    the sources at hand.  A new GL program holds the handle and the uniform
    table it is given, and no group is synchronised against it yet. *)
Definition new (program : WebGLProgram)
    (uniformData : list (string * GLUniform)) : t :=
  mk program uniformData ∅.

Definition set_uniformGroups (G : t) (m : gmap nat Z) : t :=
  mk (program G) (uniformData G) m.
End GLProgram.

(** [Program]: [glPrograms] maps a context uid to the GL program compiled
    under that context. *)
Module Program.
Record t : Type := mk {
  id : nat;
  vertexSrc : string;
  fragmentSrc : string;
  attributeData : list (string * AttributeDecl);
  uniformData : list (string * UniformDecl);
  glPrograms : gmap nat GLProgramRef
}.

Definition set_glPrograms (P : t) (m : gmap nat GLProgramRef) : t :=
  mk (id P) (vertexSrc P) (fragmentSrc P) (attributeData P) (uniformData P) m.
End Program.

(** Modelled from the spec: the [Shader] class is not part of the sources
    at hand.  A shader binds one program to one uniform group, and
    [shader.uniforms] is the [uniforms] object of that group ("inject the
    ambient global uniform group into the shader's own group"). *)
Module Shader.
Record t : Type := mk {
  program : ProgramRef;
  uniformGroup : GroupRef
}.
End Shader.

(** The two fields of the renderer the system reads. *)
Module Renderer.
Record t : Type := mk {
  CONTEXT_UID : nat;
  globalUniforms : GroupRef
}.
End Renderer.

(** ** [getSignature] *)

Section GetSignature.
Context {SyncFunc : Type}.

(** The array [strings] built by the loop of [getSignature]: each member
    name, followed by the declared type when [uniformData] has the name. *)
Fixpoint signature_strings (us : list (string * UniformValue))
    (ud : list (string * UniformDecl)) : list string :=
  match us with
  | [] => []
  | (i, _) :: us' =>
      match JSObject.get ud i with
      | Some d => i :: type d :: signature_strings us' ud
      | None => i :: signature_strings us' ud
      end
  end.

Definition getSignature (group : UniformGroup.t SyncFunc)
    (ud : list (string * UniformDecl)) : string :=
  JSObject.join "-" (signature_strings (UniformGroup.uniforms group) ud).

End GetSignature.

(** ** The collaborators imported by the system *)

(** The functions the module imports from [./utils], and the one query it
    makes on the WebGL context.  Their code is not part of the sources at
    hand, so the system is modelled over any implementation of them.
    [compileProgram] answers [None] when compilation throws. *)
Class Utils (SyncFunc : Type) : Type := {
  generateUniformsSync :
    UniformGroup.t SyncFunc → list (string * UniformDecl) → SyncFunc;
  unsafeEvalSupported : bool;
  defaultValue : string → nat → UniformValue;
  compileProgram :
    WebGLContext → string → string → list (string * Z) → option WebGLProgram;
  getUniformLocation :
    WebGLContext → WebGLProgram → string → option WebGLLocation
}.

(** What a method can throw. *)
Inductive Exn : Type :=
| TypeError
| Error (message : string)
| CompileError.

(** The calls that leave the system: to the program compiler, to the WebGL
    context, and the uploads.  [SyncFuncCall f glProgram group] is the call
    [f(glProgram.uniformData, group.uniforms, this.renderer)] of a generated
    routine; what the routine does from there (the typed uploads, the
    values it caches, the nested groups it synchronises) is the business of
    [generateUniformsSync] and is not modelled. *)
Inductive Call {SyncFunc : Type} : Type :=
| CompileProgram (gl : WebGLContext) (vertexSrc fragmentSrc : string)
    (attribMap : list (string * Z))
| UseProgram (gl : WebGLContext) (program : WebGLProgram)
| SyncFuncCall (syncFunc : SyncFunc) (glProgram : GLProgramRef)
    (group : GroupRef)
| ProgramSyncUniforms (program : ProgramRef) (glProgram : GLProgramRef)
    (uniforms : list (string * UniformValue)).
Arguments Call : clear implicits.

Definition is_CompileProgram {F} (c : Call F) : bool :=
  match c with CompileProgram _ _ _ _ => true | _ => false end.
Definition is_UseProgram {F} (c : Call F) : bool :=
  match c with UseProgram _ _ => true | _ => false end.
Definition is_upload {F} (c : Call F) : bool :=
  match c with
  | SyncFuncCall _ _ _ | ProgramSyncUniforms _ _ _ => true
  | _ => false
  end.

(** How many calls of a trace satisfy [p]. *)
Definition count {F} (p : Call F → bool) (calls : list (Call F)) : nat :=
  length (filter (λ c, p c = true) calls).

(** ** The shader system *)

Module ShaderSystem.

(** The fields of a [ShaderSystem] instance. *)
Record t {SyncFunc : Type} : Type := mk {
  gl : option WebGLContext;
  shader : option ShaderRef;
  program : option ProgramRef;
  cache : gmap string SyncFunc;
  id : nat;
  destroyed : bool
}.
Arguments t : clear implicits.
Arguments mk {_}.

Definition set_gl {F} (T : t F) (v : option WebGLContext) : t F :=
  mk v (shader T) (program T) (cache T) (id T) (destroyed T).
Definition set_shader {F} (T : t F) (v : option ShaderRef) : t F :=
  mk (gl T) v (program T) (cache T) (id T) (destroyed T).
Definition set_program {F} (T : t F) (v : option ProgramRef) : t F :=
  mk (gl T) (shader T) v (cache T) (id T) (destroyed T).
Definition set_cache {F} (T : t F) (v : gmap string F) : t F :=
  mk (gl T) (shader T) (program T) v (id T) (destroyed T).
Definition set_destroyed {F} (T : t F) (v : bool) : t F :=
  mk (gl T) (shader T) (program T) (cache T) (id T) v.

(** The store of shared objects, the renderer and the system itself. *)
Record State {SyncFunc : Type} : Type := mkState {
  shaders : gmap ShaderRef Shader.t;
  programs : gmap ProgramRef Program.t;
  groups : gmap GroupRef (UniformGroup.t SyncFunc);
  glprograms : gmap GLProgramRef GLProgram.t;
  renderer : Renderer.t;
  this : t SyncFunc
}.
Arguments State : clear implicits.
Arguments mkState {_}.

Definition with_this {F} (s : State F) (T : t F) : State F :=
  mkState (shaders s) (programs s) (groups s) (glprograms s) (renderer s) T.
Definition with_group {F} (s : State F) (r : GroupRef) (G : UniformGroup.t F)
  : State F :=
  mkState (shaders s) (programs s) (<[r := G]> (groups s)) (glprograms s)
    (renderer s) (this s).
Definition with_program {F} (s : State F) (r : ProgramRef) (P : Program.t)
  : State F :=
  mkState (shaders s) (<[r := P]> (programs s)) (groups s) (glprograms s)
    (renderer s) (this s).
Definition with_glprogram {F} (s : State F) (r : GLProgramRef)
    (G : GLProgram.t) : State F :=
  mkState (shaders s) (programs s) (groups s) (<[r := G]> (glprograms s))
    (renderer s) (this s).

Section Methods.
Context {SyncFunc : Type} {U : Utils SyncFunc}.

(** *** A state, trace and exception monad

    A computation returns the new state, the calls it made and either the
    exception thrown or the value returned.  The writes made before a
    throw stay, as in JavaScript. *)
Definition M (A : Type) : Type :=
  State SyncFunc → State SyncFunc * list (Call SyncFunc) * (Exn + A).

Definition ret {A} (a : A) : M A := λ s, (s, [], inr a).
Definition throw {A} (e : Exn) : M A := λ s, (s, [], inl e).
Definition seq {A B} (m : M A) (k : A → M B) : M B :=
  λ s, match m s with
       | (s1, c1, inl e) => (s1, c1, inl e)
       | (s1, c1, inr a) =>
           match k a s1 with (s2, c2, r) => (s2, (c1 ++ c2)%list, r) end
       end.
Definition read {A} (f : State SyncFunc → A) : M A := λ s, (s, [], inr (f s)).
Definition write (f : State SyncFunc → State SyncFunc) : M unit :=
  λ s, (f s, [], inr ()).
Definition call (c : Call SyncFunc) : M unit := λ s, (s, [c], inr ()).

(** Reading a property of [null] or [undefined] throws a [TypeError]; a
    reference outside the store reads as [undefined]. *)
Definition deref {A} (o : option A) : M A :=
  match o with Some a => ret a | None => throw TypeError end.

#[global] Instance M_ret : MRet M := @ret.
#[global] Instance M_bind : MBind M := λ A B k m, seq m k.

(** Projections of a result. *)
Definition state_of {A} (r : State SyncFunc * list (Call SyncFunc) * (Exn + A))
  : State SyncFunc := r.1.1.
Definition calls_of {A} (r : State SyncFunc * list (Call SyncFunc) * (Exn + A))
  : list (Call SyncFunc) := r.1.2.
Definition outcome_of {A}
    (r : State SyncFunc * list (Call SyncFunc) * (Exn + A)) : Exn + A := r.2.

(** *** Writes *)

Definition write_this (f : t SyncFunc → t SyncFunc) : M unit :=
  write (λ s, with_this s (f (this s))).
Definition write_group (r : GroupRef) (G : UniformGroup.t SyncFunc) : M unit :=
  write (λ s, with_group s r G).
Definition write_program (r : ProgramRef) (P : Program.t) : M unit :=
  write (λ s, with_program s r P).
Definition write_glprogram (r : GLProgramRef) (G : GLProgram.t) : M unit :=
  write (λ s, with_glprogram s r G).

(** [new GLProgram(...)]: the object gets a reference no object has yet. *)
Definition new_GLProgram (G : GLProgram.t) : M GLProgramRef :=
  r ← read (λ s, fresh (dom (glprograms s)));
  write_glprogram r G;;
  ret r.

(** *** Construction *)

Definition systemCheck : Exn + unit :=
  if negb unsafeEvalSupported
  then inl (Error ("Current environment does not allow unsafe-eval, "
                   ++ "please use @pixi/unsafe-eval module to enable support."))
  else inr ().

(** [new ShaderSystem(renderer)], given the module counter [UID]: the
    outcome and the counter afterwards. *)
Definition constructor (UID : nat) : (Exn + t SyncFunc) * nat :=
  match systemCheck with
  | inl e => (inl e, UID)
  | inr _ => (inr (mk None None None ∅ UID false), S UID)
  end.

(** *** Methods *)

Definition reset : M unit :=
  write_this (λ T, set_program T None);;
  write_this (λ T, set_shader T None).

Definition contextChange (gl' : WebGLContext) : M unit :=
  write_this (λ T, set_gl T (Some gl'));;
  reset.

Definition destroy : M unit :=
  write_this (λ T, set_destroyed T true).

(** [this.shader.program], with the [TypeError] of a null [this.shader]. *)
Definition bound_program : M (ProgramRef * Program.t) :=
  sh ← read (λ s, shader (this s));
  sh ← deref sh;
  S ← read (λ s, shaders s !! sh);
  S ← deref S;
  P ← read (λ s, programs s !! Shader.program S);
  P ← deref P;
  ret (Shader.program S, P).

Definition getglProgram : M (option GLProgramRef) :=
  sh ← read (λ s, shader (this s));
  match sh with
  | Some _ =>
      '(_, P) ← bound_program;
      uid ← read (λ s, Renderer.CONTEXT_UID (renderer s));
      ret (Program.glPrograms P !! uid)
  | None => ret None
  end.

(** The two loops of [generateShader]: the attribute locations handed to
    the compiler, and the uniform table of the new GL program. *)
Definition attribMap_of (P : Program.t) : list (string * Z) :=
  foldl (λ m '(i, a), JSObject.set m i (location a)) []
        (Program.attributeData P).

Definition uniformData_of (gl : WebGLContext) (shaderProgram : WebGLProgram)
    (P : Program.t) : list (string * GLUniform) :=
  foldl (λ m '(i, data),
           JSObject.set m i
             (mkGLUniform (getUniformLocation gl shaderProgram i)
                          (defaultValue (type data) (size data))))
        [] (Program.uniformData P).

Definition generateShader (sh : ShaderRef) : M GLProgramRef :=
  gl ← read (λ s, gl (this s));
  S ← read (λ s, shaders s !! sh);
  S ← deref S;
  let program := Shader.program S in
  P ← read (λ s, programs s !! program);
  P ← deref P;
  let attribMap := attribMap_of P in
  (* [compileProgram] starts by calling into [gl] *)
  gl ← deref gl;
  call (CompileProgram gl (Program.vertexSrc P) (Program.fragmentSrc P)
          attribMap);;
  shaderProgram ←
    match compileProgram gl (Program.vertexSrc P) (Program.fragmentSrc P)
            attribMap with
    | Some h => ret h
    | None => throw CompileError
    end;
  let uniformData := uniformData_of gl shaderProgram P in
  glProgram ← new_GLProgram (GLProgram.new shaderProgram uniformData);
  uid ← read (λ s, Renderer.CONTEXT_UID (renderer s));
  write_program program
    (Program.set_glPrograms P (<[uid := glProgram]> (Program.glPrograms P)));;
  ret glProgram.

Definition createSyncGroups (group : GroupRef) : M SyncFunc :=
  '(_, P) ← bound_program;
  G ← read (λ s, groups s !! group);
  G ← deref G;
  let id := getSignature G (Program.uniformData P) in
  c ← read (λ s, cache (this s));
  match c !! id with
  | Some _ => ret ()
  | None =>
      write_this (λ T,
        set_cache T
          (<[id := generateUniformsSync G (Program.uniformData P)]> (cache T)))
  end;;
  c ← read (λ s, cache (this s));
  f ← deref (c !! id);
  write_group group
    (UniformGroup.set_syncUniforms G
       (<[Program.id P := f]> (UniformGroup.syncUniforms G)));;
  ret f.

Definition syncUniforms (group : GroupRef) (glProgram : GLProgramRef)
  : M unit :=
  G ← read (λ s, groups s !! group);
  G ← deref G;
  '(_, P) ← bound_program;
  syncFunc ←
    match UniformGroup.syncUniforms G !! Program.id P with
    | Some f => ret f
    | None => createSyncGroups group
    end;
  GLP ← read (λ s, glprograms s !! glProgram);
  deref GLP;;
  call (SyncFuncCall syncFunc glProgram group).

Definition syncUniformGroup (group : GroupRef) : M unit :=
  glProgram ← getglProgram;
  G ← read (λ s, groups s !! group);
  G ← deref G;
  dirty ←
    (if negb (UniformGroup.static G) then ret true
     else
       r ← deref glProgram;
       GLP ← read (λ s, glprograms s !! r);
       GLP ← deref GLP;
       ret (bool_decide (GLProgram.uniformGroups GLP !! UniformGroup.id G
                         ≠ Some (UniformGroup.dirtyId G))));
  if dirty : bool then
    r ← deref glProgram;
    GLP ← read (λ s, glprograms s !! r);
    GLP ← deref GLP;
    write_glprogram r
      (GLProgram.set_uniformGroups GLP
         (<[UniformGroup.id G := UniformGroup.dirtyId G]>
            (GLProgram.uniformGroups GLP)));;
    syncUniforms group r
  else ret ().

Definition bind (sh : ShaderRef) (dontSync : bool) : M GLProgramRef :=
  S ← read (λ s, shaders s !! sh);
  S ← deref S;
  (* shader.uniforms.globals = this.renderer.globalUniforms *)
  G ← read (λ s, groups s !! Shader.uniformGroup S);
  G ← deref G;
  globals ← read (λ s, Renderer.globalUniforms (renderer s));
  write_group (Shader.uniformGroup S)
    (UniformGroup.set_uniforms G
       (JSObject.set (UniformGroup.uniforms G) "globals" (UGroup globals)));;
  let program := Shader.program S in
  P ← read (λ s, programs s !! program);
  P ← deref P;
  uid ← read (λ s, Renderer.CONTEXT_UID (renderer s));
  glProgram ←
    match Program.glPrograms P !! uid with
    | Some r => ret r
    | None => generateShader sh
    end;
  write_this (λ T, set_shader T (Some sh));;
  cur ← read (λ s, ShaderSystem.program (this s));
  (if decide (cur = Some program) then ret ()
   else
     write_this (λ T, set_program T (Some program));;
     gl ← read (λ s, gl (this s));
     gl ← deref gl;
     GLP ← read (λ s, glprograms s !! glProgram);
     GLP ← deref GLP;
     call (UseProgram gl (GLProgram.program GLP)));;
  (if dontSync then ret () else syncUniformGroup (Shader.uniformGroup S));;
  ret glProgram.

(** Modelled from the spec: [Program.prototype.syncUniforms] is not part
    of the sources at hand; it "uploads an arbitrary externally supplied
    set of name→value pairs against the currently bound shader's program",
    which the trace records as one upload call. *)
Definition Program_syncUniforms (program : ProgramRef)
    (glProgram : GLProgramRef) (uniforms : list (string * UniformValue))
  : M unit :=
  GLP ← read (λ s, glprograms s !! glProgram);
  deref GLP;;
  call (ProgramSyncUniforms program glProgram uniforms).

Definition setUniforms (uniforms : list (string * UniformValue)) : M unit :=
  '(program, P) ← bound_program;
  uid ← read (λ s, Renderer.CONTEXT_UID (renderer s));
  glProgram ← deref (Program.glPrograms P !! uid);
  Program_syncUniforms program glProgram uniforms.

End Methods.

End ShaderSystem.

(** ** A concrete scene

    Two shaders [0] and [1] share program [0]; shader [2] uses program
    [1].  Group [9] is the renderer's global uniform group.  A generated
    routine is represented by the list of strings it was generated from. *)

Module Scene.

#[global] Instance utils : Utils (list string) := {|
  generateUniformsSync G ud := signature_strings (UniformGroup.uniforms G) ud;
  unsafeEvalSupported := true;
  defaultValue _ _ := UNumber 0%Z;
  compileProgram gl v f _ := Some (100 * gl + String.length v);
  getUniformLocation _ _ name := Some (String.length name)
|}.

(** The same utilities on a platform without [new Function]. *)
Definition utils_no_eval : Utils (list string) := {|
  generateUniformsSync G ud := signature_strings (UniformGroup.uniforms G) ud;
  unsafeEvalSupported := false;
  defaultValue _ _ := UNumber 0%Z;
  compileProgram gl v f _ := Some (100 * gl + String.length v);
  getUniformLocation _ _ name := Some (String.length name)
|}.

Definition programA : Program.t :=
  Program.mk 7 "void main(){}" "void main(){gl_FragColor=uColor;}"
    [("aVertexPosition", mkAttributeDecl 0%Z)]
    [("uColor", mkUniformDecl "vec4" 1)] ∅.

Definition programB : Program.t :=
  Program.mk 8 "void main(){ }" "void main(){gl_FragColor=uTint*uAlpha;}"
    [("aVertexPosition", mkAttributeDecl 0%Z)]
    [("uTint", mkUniformDecl "vec4" 1); ("uAlpha", mkUniformDecl "float" 1)]
    ∅.

Definition group (id : nat) (static : bool)
    (us : list (string * UniformValue)) : UniformGroup.t (list string) :=
  UniformGroup.mk us id static 0 ∅.

(** The system as constructed, after a first [contextChange]. *)
Definition initial : ShaderSystem.State (list string) :=
  ShaderSystem.mkState
    {[ 0 := Shader.mk 0 0; 1 := Shader.mk 0 1; 2 := Shader.mk 1 2 ]}
    {[ 0 := programA; 1 := programB ]}
    {[ 0 := group 20 true [("uColor", UArray [1; 1; 1; 1]%Z)];
       1 := group 21 false [("uColor", UArray [0; 0; 0; 1]%Z)];
       2 := group 22 true
              [("uTint", UArray [1; 0; 0; 1]%Z); ("uAlpha", UNumber 1%Z)];
       9 := group 29 false
              [("projectionMatrix", UArray [1; 0; 0; 0; 1; 0; 0; 0; 1]%Z)] ]}
    ∅
    (Renderer.mk 1 9)
    (ShaderSystem.mk (Some 5) None None ∅ 0 false).

(** Shader [0] bound without synchronising: program A is compiled under
    context uid [1] as GL program [0], and no group is synchronised yet. *)
Definition bound0 : ShaderSystem.State (list string) :=
  Eval vm_compute in
    ShaderSystem.state_of (ShaderSystem.bind 0 true initial).

(** The same after shader [0] was bound and synchronised. *)
Definition synced0 : ShaderSystem.State (list string) :=
  Eval vm_compute in
    ShaderSystem.state_of (ShaderSystem.bind 0 false initial).

(** The context was lost and restored after that: the renderer now names
    context uid [2], under which nothing is compiled yet. *)
Definition restored : ShaderSystem.State (list string) :=
  ShaderSystem.mkState
    (ShaderSystem.shaders synced0) (ShaderSystem.programs synced0)
    (ShaderSystem.groups synced0) (ShaderSystem.glprograms synced0)
    (Renderer.mk 2 9) (ShaderSystem.this synced0).

End Scene.

Import ShaderSystem.

(** ** Vocabulary of the specification

    The states and the calls the methods produce, written out, and the
    conditions under which a method is known to return. *)

Section Vocabulary.
Context {SyncFunc : Type} {U : Utils SyncFunc}.
Implicit Types (s : State SyncFunc) (cs : list (Call SyncFunc)).
Implicit Types (G : UniformGroup.t SyncFunc) (P : Program.t) (S : Shader.t).
Implicit Types (GLP : GLProgram.t).

(** The calls [cs] made before a result. *)
Definition after {A} (cs : list (Call SyncFunc))
    (r : State SyncFunc * list (Call SyncFunc) * (Exn + A))
  : State SyncFunc * list (Call SyncFunc) * (Exn + A) :=
  (state_of r, (cs ++ calls_of r)%list, outcome_of r).

(** The routine [createSyncGroups] hands out for a group under a program:
    the cached one for the signature, or else a newly generated one. *)
Definition routine_for s G P : SyncFunc :=
  default (generateUniformsSync G (Program.uniformData P))
          (cache (this s) !! getSignature G (Program.uniformData P)).

(** The state once [this.cache] holds a routine for the signature. *)
Definition cached s G P : State SyncFunc :=
  match cache (this s) !! getSignature G (Program.uniformData P) with
  | Some _ => s
  | None =>
      with_this s
        (set_cache (this s)
           (<[getSignature G (Program.uniformData P) :=
                generateUniformsSync G (Program.uniformData P)]>
              (cache (this s))))
  end.

(** The group once it holds routine [f] under the program's id. *)
Definition attached G P (f : SyncFunc) : UniformGroup.t SyncFunc :=
  UniformGroup.set_syncUniforms G
    (<[Program.id P := f]> (UniformGroup.syncUniforms G)).

(** The state [syncUniforms] leaves, whichever path it takes. *)
Definition synced s g G P : State SyncFunc :=
  match UniformGroup.syncUniforms G !! Program.id P with
  | Some _ => s
  | None => with_group (cached s G P) g (attached G P (routine_for s G P))
  end.

(** The routine [syncUniforms] calls. *)
Definition syncFunc_of s G P : SyncFunc :=
  default (routine_for s G P) (UniformGroup.syncUniforms G !! Program.id P).

(** The guard of [syncUniformGroup] is false: the group is static and its
    [dirtyId] is the one recorded against the GL program. *)
Definition up_to_date G GLP : bool :=
  UniformGroup.static G
  && bool_decide (GLProgram.uniformGroups GLP !! UniformGroup.id G
                  = Some (UniformGroup.dirtyId G)).

(** The GL program once the group's [dirtyId] is recorded against it. *)
Definition recorded GLP G : GLProgram.t :=
  GLProgram.set_uniformGroups GLP
    (<[UniformGroup.id G := UniformGroup.dirtyId G]>
       (GLProgram.uniformGroups GLP)).

(** What [syncUniforms] and [syncUniformGroup] leave alone. *)
Definition sync_frame s s' : Prop :=
  shaders s' = shaders s ∧ programs s' = programs s ∧
  renderer s' = renderer s ∧
  gl (this s') = gl (this s) ∧ shader (this s') = shader (this s) ∧
  program (this s') = program (this s) ∧
  dom (groups s') = dom (groups s) ∧
  (∀ r, GLProgram.program <$> glprograms s' !! r
        = GLProgram.program <$> glprograms s !! r).

(** The call [generateShader] makes to the program compiler. *)
Definition compile_call (gl : WebGLContext) P : Call SyncFunc :=
  CompileProgram gl (Program.vertexSrc P) (Program.fragmentSrc P)
    (attribMap_of P).

(** The state [generateShader] leaves when the compiler returns [h]. *)
Definition generated s (gl : WebGLContext) (h : WebGLProgram) (p : ProgramRef)
    P : State SyncFunc :=
  with_program
    (with_glprogram s (fresh (dom (glprograms s)))
       (GLProgram.new h (uniformData_of gl h P)))
    p
    (Program.set_glPrograms P
       (<[Renderer.CONTEXT_UID (renderer s) := fresh (dom (glprograms s))]>
          (Program.glPrograms P))).

(** The state and the calls of [syncUniformGroup g], with [r] the GL program
    of the bound shader. *)
Definition sync_state s (g : GroupRef) (r : GLProgramRef) G GLP P
  : State SyncFunc :=
  if up_to_date G GLP then s
  else synced (with_glprogram s r (recorded GLP G)) g G P.

Definition sync_calls s (g : GroupRef) (r : GLProgramRef) G GLP P
  : list (Call SyncFunc) :=
  if up_to_date G GLP then [] else [SyncFuncCall (syncFunc_of s G P) r g].

(** The shader's group once [bind] has stored the renderer's global
    uniforms in it. *)
Definition with_globals s G : UniformGroup.t SyncFunc :=
  UniformGroup.set_uniforms G
    (JSObject.set (UniformGroup.uniforms G) "globals"
       (UGroup (Renderer.globalUniforms (renderer s)))).

(** What [bind] does once the GL program is resolved. *)
Definition bind_rest (sh : ShaderRef) S (dontSync : bool)
    (glProgram : GLProgramRef) : M GLProgramRef :=
  write_this (λ T, set_shader T (Some sh));;
  cur ← read (λ s, ShaderSystem.program (this s));
  (if decide (cur = Some (Shader.program S)) then ret ()
   else
     write_this (λ T, set_program T (Some (Shader.program S)));;
     gl ← read (λ s, gl (this s));
     gl ← deref gl;
     GLP ← read (λ s, glprograms s !! glProgram);
     GLP ← deref GLP;
     call (UseProgram gl (GLProgram.program GLP)));;
  (if dontSync then ret () else syncUniformGroup (Shader.uniformGroup S));;
  ret glProgram.

(** The system once it tracks shader [sh] and program [p]. *)
Definition tracking s (sh : ShaderRef) (p : ProgramRef) : State SyncFunc :=
  with_this s (set_program (set_shader (this s) (Some sh)) (Some p)).

(** The [useProgram] call of [bind], made when the tracked program is
    another one. *)
Definition use_calls s (gl : WebGLContext) GLP (p : ProgramRef)
  : list (Call SyncFunc) :=
  if decide (ShaderSystem.program (this s) = Some p) then []
  else [UseProgram gl (GLProgram.program GLP)].

(** Every shader names a program and a group of the store, and every GL
    program a program refers to is in the store. *)
Definition store_ok s : Prop :=
  map_Forall (λ _ S, is_Some (programs s !! Shader.program S) ∧
                     is_Some (groups s !! Shader.uniformGroup S))
             (shaders s) ∧
  map_Forall (λ _ P, map_Forall (λ _ r, is_Some (glprograms s !! r))
                                (Program.glPrograms P))
             (programs s).

(** Well-formedness of a store can be computed. *)
#[global] Instance store_ok_dec s : Decision (store_ok s).
Proof. unfold store_ok. apply _. Defined.

(** The compiler accepts program [P] under context [gl]. *)
Definition compiles (gl : WebGLContext) P : Prop :=
  is_Some (compileProgram gl (Program.vertexSrc P) (Program.fragmentSrc P)
             (attribMap_of P)).

(** What [bind sh dontSync], run in [s] with [S] the shader and [P] its
    program, has established when it returns [r] in state [s'] after the
    calls [cs]. *)
Record bind_post s (sh : ShaderRef) S P (dontSync : bool) s' cs
    (r : GLProgramRef) : Prop := {
  post_shaders : shaders s' = shaders s;
  post_renderer : renderer s' = renderer s;
  post_gl : ShaderSystem.gl (this s') = ShaderSystem.gl (this s);
  post_shader : shader (this s') = Some sh;
  post_program : program (this s') = Some (Shader.program S);
  post_programs :
    programs s' =
    <[Shader.program S :=
        Program.set_glPrograms P
          (<[Renderer.CONTEXT_UID (renderer s) := r]> (Program.glPrograms P))]>
      (programs s);
  post_groups : dom (groups s') = dom (groups s);
  post_glprograms : ∀ r', is_Some (glprograms s !! r') →
    GLProgram.program <$> glprograms s' !! r'
    = GLProgram.program <$> glprograms s !! r';
  post_result : is_Some (glprograms s' !! r);
  post_resolved :
    match Program.glPrograms P !! Renderer.CONTEXT_UID (renderer s) with
    | Some r0 => r = r0
    | None => r = fresh (dom (glprograms s))
    end;
  post_compile :
    count is_CompileProgram cs
    = (if Program.glPrograms P !! Renderer.CONTEXT_UID (renderer s) is Some _
       then 0 else 1);
  post_use :
    count is_UseProgram cs
    = (if decide (program (this s) = Some (Shader.program S)) then 0 else 1);
  post_handle : ∀ gl,
    ShaderSystem.gl (this s) = Some gl →
    Program.glPrograms P !! Renderer.CONTEXT_UID (renderer s) = None →
    GLProgram.program <$> glprograms s' !! r
    = compileProgram gl (Program.vertexSrc P) (Program.fragmentSrc P)
        (attribMap_of P)
}.

(** Shader [sh] can be bound under context [gl]: it is in the store with
    its program, and the compiler accepts the program. *)
Definition bindable s (gl : WebGLContext) (sh : ShaderRef) : Prop :=
  ∃ S P, shaders s !! sh = Some S ∧
         programs s !! Shader.program S = Some P ∧ compiles gl P.

(** [bind] called for each shader of [calls] in turn: the trace of each
    call, or [None] when a call throws. *)
Fixpoint binds (calls : list (ShaderRef * bool)) s
  : option (list (list (Call SyncFunc))) :=
  match calls with
  | [] => Some []
  | (sh, dontSync) :: calls' =>
      match bind sh dontSync s with
      | (s', cs, inr _) => (cs ::.) <$> binds calls' s'
      | (_, _, inl _) => None
      end
  end.

(** The programs the shaders of [calls] refer to. *)
Definition programs_of s (calls : list (ShaderRef * bool))
  : list ProgramRef :=
  omap (λ c, Shader.program <$> shaders s !! c.1) calls.

(** For each program of a sequence, [1] when it differs from the program
    tracked just before, [0] when it is the same. *)
Fixpoint switches (tracked : option ProgramRef) (ps : list ProgramRef)
  : list nat :=
  match ps with
  | [] => []
  | p :: ps' =>
      (if decide (tracked = Some p) then 0 else 1) :: switches (Some p) ps'
  end.

End Vocabulary.

(** ** Further vocabulary *)

(** The character ['-'], the separator of [getSignature]. *)
Definition dash : Ascii.ascii :=
  Ascii.Ascii true false true true false true false false.

(** The string holds no ['-']. *)
Fixpoint no_dash (s : string) : bool :=
  match s with
  | EmptyString => true
  | String c s' => bool_decide (c ≠ dash) && no_dash s'
  end.

(** A member name that cannot be confused in a signature: not empty and
    without the separator. *)
Definition plain_name (i : string) : Prop := i ≠ "" ∧ no_dash i = true.

(** A scene whose compiler rejects a program: program [0] has an empty
    vertex source. *)
Module Faulty.

Definition utils : Utils (list string) := {|
  generateUniformsSync G ud := signature_strings (UniformGroup.uniforms G) ud;
  unsafeEvalSupported := true;
  defaultValue _ _ := UNumber 0%Z;
  compileProgram gl v f _ :=
    if decide (v = "") then None else Some (100 * gl + String.length v);
  getUniformLocation _ _ name := Some (String.length name)
|}.

Definition programC : Program.t :=
  Program.mk 9 "" "void main(){}" [] [("uColor", mkUniformDecl "vec4" 1)] ∅.

Definition initial : ShaderSystem.State (list string) :=
  ShaderSystem.mkState
    {[ 0 := Shader.mk 0 0 ]}
    {[ 0 := programC ]}
    {[ 0 := Scene.group 40 false [("uColor", UArray [1; 1; 1; 1]%Z)];
       9 := Scene.group 29 false [] ]}
    ∅
    (Renderer.mk 1 9)
    (ShaderSystem.mk (Some 5) None None ∅ 0 false).

End Faulty.

(** Shader [0] of the scene bound, with two more groups in the store whose
    member names differ and whose signatures under program A agree. *)
Module Collide.

Definition plain : UniformGroup.t (list string) :=
  Scene.group 30 false [("uColor", UNumber 0)].

Definition dashed : UniformGroup.t (list string) :=
  Scene.group 31 false [("uColor-vec4", UNumber 0)].

Definition bound : ShaderSystem.State (list string) :=
  ShaderSystem.with_group (ShaderSystem.with_group Scene.bound0 3 plain)
    4 dashed.

End Collide.

(** [n] systems constructed one after the other, starting from the module
    counter [UID]: the instances made, up to the first construction that
    throws, and the counter afterwards. *)
Fixpoint constructors {SyncFunc : Type} {U : Utils SyncFunc} (n UID : nat)
  : list (ShaderSystem.t SyncFunc) * nat :=
  match n with
  | 0 => ([], UID)
  | Datatypes.S n' =>
      match ShaderSystem.constructor UID with
      | (inr T, UID') =>
          let '(Ts, UID'') := constructors n' UID' in (T :: Ts, UID'')
      | (inl _, UID') => ([], UID')
      end
  end.

(** ** Running the monad *)

Section Run.
Context {SyncFunc : Type} {U : Utils SyncFunc}.
Implicit Types (s : State SyncFunc) (cs : list (Call SyncFunc)).

Lemma after_nil {A} (r : State SyncFunc * list (Call SyncFunc) * (Exn + A)) :
  after [] r = r.
Proof. by destruct r as [[??]?]. Qed.

Lemma seq_step {A B} (m : M A) (k : A → M B) s s1 cs a :
  m s = (s1, cs, inr a) → seq m k s = after cs (k a s1).
Proof. unfold seq, after. intros ->. by destruct (k a s1) as [[??]?]. Qed.

Lemma seq_pure {A B} (m : M A) (k : A → M B) s a :
  m s = (s, [], inr a) → seq m k s = k a s.
Proof. intros Hm. by rewrite (seq_step _ _ _ _ _ _ Hm), after_nil. Qed.

Lemma seq_fail {A B} (m : M A) (k : A → M B) s s1 cs e :
  m s = (s1, cs, inl e) → seq m k s = (s1, cs, inl e).
Proof. unfold seq. by intros ->. Qed.

Lemma seq_ret {A B} (a : A) (k : A → M B) s : seq (ret a) k s = k a s.
Proof. by apply seq_pure. Qed.

Lemma seq_read {A B} (f : State SyncFunc → A) (k : A → M B) s :
  seq (read f) k s = k (f s) s.
Proof. by apply seq_pure. Qed.

Lemma seq_write {B} (f : State SyncFunc → State SyncFunc) (k : () → M B) s :
  seq (write f) k s = k () (f s).
Proof. by rewrite (seq_step _ _ s (f s) [] ()), after_nil. Qed.

Lemma seq_call {B} (c : Call SyncFunc) (k : () → M B) s :
  seq (call c) k s = after [c] (k () s).
Proof. by apply seq_step. Qed.

Lemma seq_throw {A B} (e : Exn) (k : A → M B) s :
  seq (throw e) k s = (s, [], inl e).
Proof. done. Qed.

Lemma seq_assoc {A B C} (m : M A) (k : A → M B) (k' : B → M C) s :
  seq (seq m k) k' s = seq m (λ a, seq (k a) k') s.
Proof.
  unfold seq. destruct (m s) as [[s1 c1] [e|a]]; [done|].
  destruct (k a s1) as [[s2 c2] [e|b]]; [done|].
  destruct (k' b s2) as [[s3 c3] r]. by rewrite (assoc_L (++)).
Qed.

End Run.

(** Symbolic execution of a method body: expose [seq], then consume the
    leading primitive. *)
Ltac mstep :=
  first
    [ rewrite seq_assoc
    | rewrite seq_ret
    | rewrite seq_read
    | rewrite seq_write
    | rewrite seq_call
    | rewrite seq_throw ].
Ltac mrun :=
  unfold mbind, M_bind, mret, M_ret, deref, write_this, write_group,
    write_program, write_glprogram, new_GLProgram;
  repeat (cbn beta iota; mstep).

Ltac mdone :=
  unfold after, ret, state_of, calls_of, outcome_of; simpl;
  rewrite ?app_nil_r; done.

Section Facts.
Context {SyncFunc : Type} {U : Utils SyncFunc}.
Implicit Types (s : State SyncFunc) (cs : list (Call SyncFunc)).
Implicit Types (G : UniformGroup.t SyncFunc) (P : Program.t) (S : Shader.t).

(** *** [reset] and [contextChange] *)

Lemma reset_eq s :
  reset s =
    (with_this s (mk (gl (this s)) None None (cache (this s)) (id (this s))
                     (destroyed (this s))), [], inr ()).
Proof. reflexivity. Qed.

Lemma contextChange_eq s gl' :
  contextChange gl' s =
    (with_this s (mk (Some gl') None None (cache (this s)) (id (this s))
                     (destroyed (this s))), [], inr ()).
Proof. reflexivity. Qed.

(** *** The bound program *)

Lemma bound_program_eq s sh S P :
  shader (this s) = Some sh →
  shaders s !! sh = Some S →
  programs s !! Shader.program S = Some P →
  bound_program s = (s, [], inr (Shader.program S, P)).
Proof.
  intros Hsh HS HP. unfold bound_program. mrun.
  rewrite Hsh. mrun. rewrite HS. mrun. rewrite HP. by mrun.
Qed.

Lemma bound_program_unbound s :
  shader (this s) = None → bound_program s = (s, [], inl TypeError).
Proof. intros Hsh. unfold bound_program. mrun. rewrite Hsh. by mrun. Qed.

Lemma getglProgram_eq s sh S P :
  shader (this s) = Some sh →
  shaders s !! sh = Some S →
  programs s !! Shader.program S = Some P →
  getglProgram s =
    (s, [], inr (Program.glPrograms P !! Renderer.CONTEXT_UID (renderer s))).
Proof.
  intros Hsh HS HP. unfold getglProgram. mrun. rewrite Hsh.
  rewrite (seq_pure _ _ _ _ (bound_program_eq _ _ _ _ Hsh HS HP)). by mrun.
Qed.

End Facts.

Section Sync.
Context {SyncFunc : Type} {U : Utils SyncFunc}.
Implicit Types (s : State SyncFunc) (cs : list (Call SyncFunc)).
Implicit Types (G : UniformGroup.t SyncFunc) (P : Program.t) (S : Shader.t).
Implicit Types (GLP : GLProgram.t).

(** *** [createSyncGroups] *)

Lemma cached_frame s G P :
  shaders (cached s G P) = shaders s ∧
  programs (cached s G P) = programs s ∧
  groups (cached s G P) = groups s ∧
  glprograms (cached s G P) = glprograms s ∧
  renderer (cached s G P) = renderer s ∧
  gl (this (cached s G P)) = gl (this s) ∧
  shader (this (cached s G P)) = shader (this s) ∧
  program (this (cached s G P)) = program (this s).
Proof. unfold cached. by destruct (cache (this s) !! _). Qed.

Lemma cached_lookup s G P :
  cache (this (cached s G P)) !! getSignature G (Program.uniformData P)
  = Some (routine_for s G P).
Proof.
  unfold cached, routine_for.
  destruct (cache (this s) !! _) as [f|] eqn:Hc; simpl; [done|].
  by rewrite lookup_insert_eq.
Qed.

Lemma createSyncGroups_eq s g G sh S P :
  shader (this s) = Some sh →
  shaders s !! sh = Some S →
  programs s !! Shader.program S = Some P →
  groups s !! g = Some G →
  createSyncGroups g s =
    (with_group (cached s G P) g (attached G P (routine_for s G P)), [],
     inr (routine_for s G P)).
Proof.
  intros Hsh HS HP HG. unfold createSyncGroups. mrun.
  rewrite (seq_pure _ _ _ _ (bound_program_eq _ _ _ _ Hsh HS HP)). mrun.
  rewrite HG. mrun.
  unfold routine_for, cached.
  destruct (cache (this s) !! _) as [f|] eqn:Hc; mrun; simpl.
  - rewrite Hc. by mrun.
  - rewrite lookup_insert_eq. by mrun.
Qed.

(** *** [syncUniforms] *)

(** The fast path: the group already holds a routine for the program. *)
Lemma syncUniforms_hit s g r G sh S P GLP f :
  shader (this s) = Some sh →
  shaders s !! sh = Some S →
  programs s !! Shader.program S = Some P →
  groups s !! g = Some G →
  glprograms s !! r = Some GLP →
  UniformGroup.syncUniforms G !! Program.id P = Some f →
  syncUniforms g r s = (s, [SyncFuncCall f r g], inr ()).
Proof.
  intros Hsh HS HP HG HGLP Hf. unfold syncUniforms. mrun.
  rewrite HG. mrun.
  rewrite (seq_pure _ _ _ _ (bound_program_eq _ _ _ _ Hsh HS HP)). mrun.
  rewrite Hf. mrun. rewrite HGLP. by mrun.
Qed.

(** The slow path: the routine comes from [createSyncGroups]. *)
Lemma syncUniforms_miss s g r G sh S P GLP :
  shader (this s) = Some sh →
  shaders s !! sh = Some S →
  programs s !! Shader.program S = Some P →
  groups s !! g = Some G →
  glprograms s !! r = Some GLP →
  UniformGroup.syncUniforms G !! Program.id P = None →
  syncUniforms g r s =
    (with_group (cached s G P) g (attached G P (routine_for s G P)),
     [SyncFuncCall (routine_for s G P) r g], inr ()).
Proof.
  intros Hsh HS HP HG HGLP Hf. unfold syncUniforms. mrun.
  rewrite HG. mrun.
  rewrite (seq_pure _ _ _ _ (bound_program_eq _ _ _ _ Hsh HS HP)). mrun.
  rewrite Hf.
  rewrite (seq_step _ _ _ _ _ _ (createSyncGroups_eq _ _ _ _ _ _ Hsh HS HP HG)).
  mrun. simpl. destruct (cached_frame s G P) as (_&_&_&->&_).
  rewrite HGLP. by mrun.
Qed.

Lemma syncUniforms_eq s g r G sh S P GLP :
  shader (this s) = Some sh →
  shaders s !! sh = Some S →
  programs s !! Shader.program S = Some P →
  groups s !! g = Some G →
  glprograms s !! r = Some GLP →
  syncUniforms g r s =
    (synced s g G P, [SyncFuncCall (syncFunc_of s G P) r g], inr ()).
Proof.
  intros Hsh HS HP HG HGLP. unfold synced, syncFunc_of.
  destruct (UniformGroup.syncUniforms G !! Program.id P) as [f|] eqn:Hf.
  - by eapply syncUniforms_hit.
  - by eapply syncUniforms_miss.
Qed.

End Sync.

Section SyncGroup.
Context {SyncFunc : Type} {U : Utils SyncFunc}.
Implicit Types (s : State SyncFunc) (cs : list (Call SyncFunc)).
Implicit Types (G : UniformGroup.t SyncFunc) (P : Program.t) (S : Shader.t).
Implicit Types (GLP : GLProgram.t).

(** *** [syncUniformGroup] *)

Lemma syncUniformGroup_clean s g r G sh S P GLP :
  shader (this s) = Some sh →
  shaders s !! sh = Some S →
  programs s !! Shader.program S = Some P →
  Program.glPrograms P !! Renderer.CONTEXT_UID (renderer s) = Some r →
  glprograms s !! r = Some GLP →
  groups s !! g = Some G →
  up_to_date G GLP = true →
  syncUniformGroup g s = (s, [], inr ()).
Proof.
  intros Hsh HS HP Hr HGLP HG [Hst Hrec%bool_decide_eq_true]%andb_true_iff.
  unfold syncUniformGroup. mrun.
  rewrite (seq_pure _ _ _ _ (getglProgram_eq _ _ _ _ Hsh HS HP)). mrun.
  rewrite HG. mrun. rewrite Hst, Hr. simpl. mrun. rewrite HGLP. mrun.
  rewrite bool_decide_eq_false_2 by (by intros ?). done.
Qed.

Lemma syncUniformGroup_dirty s g r G sh S P GLP :
  shader (this s) = Some sh →
  shaders s !! sh = Some S →
  programs s !! Shader.program S = Some P →
  Program.glPrograms P !! Renderer.CONTEXT_UID (renderer s) = Some r →
  glprograms s !! r = Some GLP →
  groups s !! g = Some G →
  up_to_date G GLP = false →
  syncUniformGroup g s =
    (synced (with_glprogram s r (recorded GLP G)) g G P,
     [SyncFuncCall (syncFunc_of s G P) r g], inr ()).
Proof.
  intros Hsh HS HP Hr HGLP HG Hup.
  unfold syncUniformGroup. mrun.
  rewrite (seq_pure _ _ _ _ (getglProgram_eq _ _ _ _ Hsh HS HP)). mrun.
  rewrite HG. mrun. rewrite Hr.
  assert (Hgo : syncUniforms g r (with_glprogram s r (recorded GLP G))
    = (synced (with_glprogram s r (recorded GLP G)) g G P,
       [SyncFuncCall (syncFunc_of s G P) r g], inr ())).
  { erewrite syncUniforms_eq; [done|done..| |]; simpl; [done|].
    by rewrite lookup_insert_eq. }
  unfold up_to_date in Hup.
  destruct (UniformGroup.static G); simpl in *; mrun.
  - rewrite HGLP. mrun.
    rewrite bool_decide_eq_true_2 by (by apply bool_decide_eq_false in Hup).
    mrun. rewrite HGLP. mrun. exact Hgo.
  - rewrite HGLP. mrun. exact Hgo.
Qed.

Lemma sync_frame_refl s : sync_frame s s.
Proof. by repeat split. Qed.

Lemma synced_frame s g G P :
  groups s !! g = Some G → sync_frame s (synced s g G P).
Proof.
  intros HG. unfold synced.
  destruct (UniformGroup.syncUniforms G !! Program.id P);
    [apply sync_frame_refl|].
  destruct (cached_frame s G P) as (?&?&Hg&?&?&?&?&?).
  repeat split; simpl; try done.
  - rewrite Hg. by apply dom_insert_lookup_L.
  - intros r. congruence.
Qed.

Lemma synced_group_lookup s g G P :
  groups s !! g = Some G →
  ∃ G', groups (synced s g G P) !! g = Some G' ∧
        UniformGroup.id G' = UniformGroup.id G ∧
        UniformGroup.static G' = UniformGroup.static G ∧
        UniformGroup.dirtyId G' = UniformGroup.dirtyId G ∧
        UniformGroup.uniforms G' = UniformGroup.uniforms G.
Proof.
  intros HG. unfold synced.
  destruct (UniformGroup.syncUniforms G !! Program.id P); [by exists G|].
  eexists. simpl. by rewrite lookup_insert_eq.
Qed.

Lemma synced_glprograms s g G P :
  glprograms (synced s g G P) = glprograms s.
Proof.
  unfold synced. destruct (UniformGroup.syncUniforms G !! Program.id P);
    [done|]. simpl. by destruct (cached_frame s G P) as (_&_&_&->&_).
Qed.

End SyncGroup.

Section Bind.
Context {SyncFunc : Type} {U : Utils SyncFunc}.
Implicit Types (s : State SyncFunc) (cs : list (Call SyncFunc)).
Implicit Types (G : UniformGroup.t SyncFunc) (P : Program.t) (S : Shader.t).
Implicit Types (GLP : GLProgram.t).

(** *** [generateShader] *)

Lemma generateShader_eq s sh S P gl h :
  shaders s !! sh = Some S →
  programs s !! Shader.program S = Some P →
  ShaderSystem.gl (this s) = Some gl →
  compileProgram gl (Program.vertexSrc P) (Program.fragmentSrc P)
    (attribMap_of P) = Some h →
  generateShader sh s =
    (generated s gl h (Shader.program S) P, [compile_call gl P],
     inr (fresh (dom (glprograms s)))).
Proof.
  intros HS HP Hgl Hc. unfold generateShader. mrun.
  rewrite HS. mrun. rewrite HP. mrun. rewrite Hgl. mrun. rewrite Hc. by mrun.
Qed.

Lemma generateShader_throws s sh S P gl :
  shaders s !! sh = Some S →
  programs s !! Shader.program S = Some P →
  ShaderSystem.gl (this s) = Some gl →
  compileProgram gl (Program.vertexSrc P) (Program.fragmentSrc P)
    (attribMap_of P) = None →
  generateShader sh s = (s, [compile_call gl P], inl CompileError).
Proof.
  intros HS HP Hgl Hc. unfold generateShader. mrun.
  rewrite HS. mrun. rewrite HP. mrun. rewrite Hgl. mrun. rewrite Hc. by mrun.
Qed.

(** *** [syncUniformGroup], both branches *)

Lemma syncUniformGroup_eq s g r G sh S P GLP :
  shader (this s) = Some sh →
  shaders s !! sh = Some S →
  programs s !! Shader.program S = Some P →
  Program.glPrograms P !! Renderer.CONTEXT_UID (renderer s) = Some r →
  glprograms s !! r = Some GLP →
  groups s !! g = Some G →
  syncUniformGroup g s =
    (sync_state s g r G GLP P, sync_calls s g r G GLP P, inr ()).
Proof.
  intros. unfold sync_state, sync_calls.
  destruct (up_to_date G GLP) eqn:Hup.
  - by eapply syncUniformGroup_clean.
  - by eapply syncUniformGroup_dirty.
Qed.

Lemma sync_state_frame s g r G GLP P :
  groups s !! g = Some G → glprograms s !! r = Some GLP →
  sync_frame s (sync_state s g r G GLP P).
Proof.
  intros HG HGLP. unfold sync_state.
  destruct (up_to_date G GLP); [apply sync_frame_refl|].
  destruct (synced_frame (with_glprogram s r (recorded GLP G)) g G P HG)
    as (?&?&?&?&?&?&?&Hh).
  repeat split; try done.
  intros r'. rewrite Hh. simpl.
  destruct (decide (r = r')) as [<-|].
  - by rewrite lookup_insert_eq, HGLP.
  - by rewrite lookup_insert_ne.
Qed.

Lemma sync_calls_uploads s g r G GLP P :
  count is_CompileProgram (sync_calls s g r G GLP P) = 0 ∧
  count is_UseProgram (sync_calls s g r G GLP P) = 0 ∧
  count is_upload (sync_calls s g r G GLP P)
  = (if up_to_date G GLP then 0 else 1).
Proof. unfold sync_calls. by destruct (up_to_date G GLP). Qed.

(** *** [bind] *)

Lemma bind_rest_eq s sh S P G GLP gl r dontSync :
  shaders s !! sh = Some S →
  programs s !! Shader.program S = Some P →
  groups s !! Shader.uniformGroup S = Some G →
  ShaderSystem.gl (this s) = Some gl →
  Program.glPrograms P !! Renderer.CONTEXT_UID (renderer s) = Some r →
  glprograms s !! r = Some GLP →
  bind_rest sh S dontSync r s =
    (if dontSync then tracking s sh (Shader.program S)
     else sync_state (tracking s sh (Shader.program S))
            (Shader.uniformGroup S) r G GLP P,
     (use_calls s gl GLP (Shader.program S) ++
      if dontSync then []
      else sync_calls (tracking s sh (Shader.program S))
             (Shader.uniformGroup S) r G GLP P)%list,
     inr r).
Proof.
  intros HS HP HG Hgl Hr HGLP.
  set (p := Shader.program S) in *.
  assert (Hsync : ∀ (k : () → M GLProgramRef),
    seq (if dontSync then ret ()
         else syncUniformGroup (Shader.uniformGroup S)) k (tracking s sh p)
    = after (if dontSync then []
             else sync_calls (tracking s sh p) (Shader.uniformGroup S) r G
                    GLP P)
        (k () (if dontSync then tracking s sh p
               else sync_state (tracking s sh p) (Shader.uniformGroup S) r G
                      GLP P))).
  { intros k. destruct dontSync.
    - by rewrite seq_ret, after_nil.
    - erewrite seq_step; [done|]. by eapply syncUniformGroup_eq. }
  unfold bind_rest, use_calls. fold p. mrun. simpl.
  destruct (decide (ShaderSystem.program (this s) = Some p)) as [Hcur|Hcur].
  - mrun.
    replace (with_this s (set_shader (this s) (Some sh)))
      with (tracking s sh p).
    2:{ unfold tracking, set_program, set_shader. simpl. by rewrite Hcur. }
    rewrite Hsync. destruct dontSync; mdone.
  - mrun. simpl. rewrite Hgl. mrun. simpl. rewrite HGLP. mrun.
    change (with_this _ _) with (tracking s sh p).
    rewrite Hsync. destruct dontSync; mdone.
Qed.

Lemma bind_hit s sh S P G GLP gl r dontSync :
  shaders s !! sh = Some S →
  programs s !! Shader.program S = Some P →
  groups s !! Shader.uniformGroup S = Some G →
  ShaderSystem.gl (this s) = Some gl →
  Program.glPrograms P !! Renderer.CONTEXT_UID (renderer s) = Some r →
  glprograms s !! r = Some GLP →
  bind sh dontSync s =
    bind_rest sh S dontSync r
      (with_group s (Shader.uniformGroup S) (with_globals s G)).
Proof.
  intros HS HP HG Hgl Hr HGLP. unfold bind. mrun.
  rewrite HS. mrun. rewrite HG. mrun. simpl. rewrite HP. mrun. simpl.
  rewrite Hr. unfold bind_rest, with_globals. by mrun.
Qed.

Lemma bind_miss s sh S P G gl h dontSync :
  shaders s !! sh = Some S →
  programs s !! Shader.program S = Some P →
  groups s !! Shader.uniformGroup S = Some G →
  ShaderSystem.gl (this s) = Some gl →
  Program.glPrograms P !! Renderer.CONTEXT_UID (renderer s) = None →
  compileProgram gl (Program.vertexSrc P) (Program.fragmentSrc P)
    (attribMap_of P) = Some h →
  bind sh dontSync s =
    after [compile_call gl P]
      (bind_rest sh S dontSync (fresh (dom (glprograms s)))
         (generated
            (with_group s (Shader.uniformGroup S) (with_globals s G))
            gl h (Shader.program S) P)).
Proof.
  intros HS HP HG Hgl Hr Hc. unfold bind. mrun.
  rewrite HS. mrun. rewrite HG. mrun. simpl. rewrite HP. mrun. simpl.
  rewrite Hr.
  rewrite (seq_step _ _ _ _ _ _
             (generateShader_eq
                (with_group s (Shader.uniformGroup S) (with_globals s G))
                sh S P gl h HS HP Hgl Hc)).
  unfold bind_rest. by mrun.
Qed.

Lemma bind_compile_error s sh S P G gl dontSync :
  shaders s !! sh = Some S →
  programs s !! Shader.program S = Some P →
  groups s !! Shader.uniformGroup S = Some G →
  ShaderSystem.gl (this s) = Some gl →
  Program.glPrograms P !! Renderer.CONTEXT_UID (renderer s) = None →
  compileProgram gl (Program.vertexSrc P) (Program.fragmentSrc P)
    (attribMap_of P) = None →
  outcome_of (bind sh dontSync s) = inl CompileError.
Proof.
  intros HS HP HG Hgl Hr Hc. unfold bind. mrun.
  rewrite HS. mrun. rewrite HG. mrun. simpl. rewrite HP. mrun. simpl.
  rewrite Hr.
  by rewrite (seq_fail _ _ _ _ _ _
                (generateShader_throws
                   (with_group s (Shader.uniformGroup S) (with_globals s G))
                   sh S P gl HS HP Hgl Hc)).
Qed.

(** *** What a successful [bind] establishes *)

Lemma count_app (p : Call SyncFunc → bool) cs1 cs2 :
  count p (cs1 ++ cs2) = count p cs1 + count p cs2.
Proof. unfold count. by rewrite filter_app, length_app. Qed.

Lemma bind_rest_post s sh S P G GLP gl r dontSync :
  shaders s !! sh = Some S →
  programs s !! Shader.program S = Some P →
  groups s !! Shader.uniformGroup S = Some G →
  ShaderSystem.gl (this s) = Some gl →
  Program.glPrograms P !! Renderer.CONTEXT_UID (renderer s) = Some r →
  glprograms s !! r = Some GLP →
  ∃ s' cs,
    bind_rest sh S dontSync r s = (s', cs, inr r) ∧
    shaders s' = shaders s ∧ programs s' = programs s ∧
    renderer s' = renderer s ∧
    ShaderSystem.gl (this s') = ShaderSystem.gl (this s) ∧
    shader (this s') = Some sh ∧
    program (this s') = Some (Shader.program S) ∧
    dom (groups s') = dom (groups s) ∧
    (∀ r', GLProgram.program <$> glprograms s' !! r'
           = GLProgram.program <$> glprograms s !! r') ∧
    count is_CompileProgram cs = 0 ∧
    count is_UseProgram cs
    = (if decide (program (this s) = Some (Shader.program S))
       then 0 else 1) ∧
    count is_upload cs
    = (if dontSync then 0 else if up_to_date G GLP then 0 else 1).
Proof.
  intros HS HP HG Hgl Hr HGLP.
  rewrite (bind_rest_eq _ _ _ _ _ _ _ _ dontSync HS HP HG Hgl Hr HGLP).
  do 2 eexists. split; [done|].
  set (s1 := tracking s sh (Shader.program S)).
  assert (Huse : ∀ p,
    count p (use_calls s gl GLP (Shader.program S))
    = if decide (program (this s) = Some (Shader.program S)) then 0
      else if p (UseProgram gl (GLProgram.program GLP)) then 1 else 0).
  { intros p. unfold use_calls, count. case_decide; [done|].
    rewrite filter_cons, filter_nil. by destruct (p _). }
  rewrite !count_app, !Huse. simpl.
  destruct dontSync.
  - repeat split; try done; by case_decide.
  - destruct (sync_state_frame s1 (Shader.uniformGroup S) r G GLP P HG HGLP)
      as (?&?&?&?&?&?&?&?).
    destruct (sync_calls_uploads s1 (Shader.uniformGroup S) r G GLP P)
      as (->&->&->).
    repeat split; try done; by case_decide.
Qed.

(** The same, spelled out. *)
Lemma store_ok_shader s sh S :
  store_ok s → shaders s !! sh = Some S →
  is_Some (programs s !! Shader.program S) ∧
  is_Some (groups s !! Shader.uniformGroup S).
Proof. intros [H _] HS. exact (H sh S HS). Qed.

Lemma store_ok_glprogram s p P uid r :
  store_ok s → programs s !! p = Some P →
  Program.glPrograms P !! uid = Some r → is_Some (glprograms s !! r).
Proof. intros [_ H] HP Hr. exact (H p P HP uid r Hr). Qed.

Lemma set_glPrograms_id P uid r :
  Program.glPrograms P !! uid = Some r →
  Program.set_glPrograms P (<[uid := r]> (Program.glPrograms P)) = P.
Proof. intros H. destruct P. unfold Program.set_glPrograms. simpl in *.
  by rewrite insert_id. Qed.

Lemma bind_ok s sh S P gl dontSync :
  store_ok s →
  shaders s !! sh = Some S →
  programs s !! Shader.program S = Some P →
  ShaderSystem.gl (this s) = Some gl →
  (Program.glPrograms P !! Renderer.CONTEXT_UID (renderer s) = None →
   compiles gl P) →
  ∃ s' cs r,
    bind sh dontSync s = (s', cs, inr r) ∧
    bind_post s sh S P dontSync s' cs r ∧
    store_ok s'.
Proof.
  intros Hok HS HP Hgl Hcomp.
  pose proof (store_ok_shader s) as Hok1.
  pose proof (store_ok_glprogram s) as Hok2.
  destruct (Hok1 _ _ Hok HS) as [_ [G HG]].
  set (sa := with_group s (Shader.uniformGroup S) (with_globals s G)).
  assert (HGa : groups sa !! Shader.uniformGroup S = Some (with_globals s G))
    by (simpl; by rewrite lookup_insert_eq).
  assert (Hdom : dom (groups sa) = dom (groups s)).
  { simpl. by apply dom_insert_lookup_L. }
  destruct (Program.glPrograms P !! Renderer.CONTEXT_UID (renderer s))
    as [r|] eqn:Hr.
  - (* the program is already compiled under this context *)
    destruct (Hok2 _ _ _ _ Hok HP Hr) as [GLP HGLP].
    destruct (bind_rest_post sa sh S P (with_globals s G) GLP gl r dontSync)
      as (s'&cs&Heq&Hsh&Hpr&Hre&Hg&Hshader&Hprog&Hgr&Hgl'&Hc&Hu&_); try done.
    exists s', cs, r. split.
    { rewrite (bind_hit _ _ _ _ _ _ _ _ dontSync HS HP HG Hgl Hr HGLP).
      exact Heq. }
    assert (Hprs : programs s' = programs s) by done.
    split.
    + split; try done.
      * rewrite Hprs, set_glPrograms_id by exact Hr.
        by rewrite insert_id.
      * by rewrite Hgr.
      * rewrite <-(fmap_is_Some GLProgram.program), Hgl'. simpl.
        by rewrite HGLP.
      * by rewrite Hr.
      * by rewrite Hr.
      * intros gl0 _ Hnone. congruence.
    + split.
      * intros sh' S'. rewrite Hsh, Hprs. intros HS'.
        destruct (Hok1 _ _ Hok HS') as [? HG'%elem_of_dom]. split; [done|].
        apply elem_of_dom. by rewrite Hgr, Hdom.
      * intros p' P'. rewrite Hprs. intros HP' uid' r' Hr'.
        destruct (Hok2 _ _ _ _ Hok HP' Hr') as [GLP' HGLP'].
        rewrite <-(fmap_is_Some GLProgram.program), Hgl'. simpl.
        by rewrite HGLP'.
  - (* the program is compiled now *)
    destruct (Hcomp eq_refl) as [h Hh].
    set (r := fresh (dom (glprograms s))).
    set (GLP := GLProgram.new h (uniformData_of gl h P)).
    set (P' := Program.set_glPrograms P
      (<[Renderer.CONTEXT_UID (renderer s) := r]> (Program.glPrograms P))).
    set (sb := generated sa gl h (Shader.program S) P).
    assert (Hfresh : glprograms s !! r = None).
    { apply not_elem_of_dom. apply is_fresh. }
    destruct (bind_rest_post sb sh S P' (with_globals s G) GLP gl r dontSync)
      as (s'&cs&Heq&Hsh&Hpr&Hre&Hg&Hshader&Hprog&Hgr&Hgl'&Hc&Hu&_);
      try done.
    { simpl. by rewrite lookup_insert_eq. }
    { simpl. by rewrite lookup_insert_eq. }
    { simpl. by rewrite lookup_insert_eq. }
    exists s', (compile_call gl P :: cs), r. split.
    { rewrite (bind_miss _ _ _ _ _ _ _ dontSync HS HP HG Hgl Hr Hh).
      etrans; [exact (f_equal (after _) Heq)|done]. }
    assert (Hprs : programs s' = <[Shader.program S := P']> (programs s))
      by done.
    assert (Hkeep : ∀ r', is_Some (glprograms s !! r') →
      GLProgram.program <$> glprograms s' !! r'
      = GLProgram.program <$> glprograms s !! r').
    { intros r' [GLP' HGLP']. rewrite Hgl'. simpl.
      rewrite lookup_insert_ne; [done|]. intros <-. unfold r in Hfresh.
      congruence. }
    assert (Hnew : is_Some (glprograms s' !! r)).
    { rewrite <-(fmap_is_Some GLProgram.program), Hgl'. simpl.
      by rewrite lookup_insert_eq. }
    split.
    + split; try done.
      * by rewrite Hgr.
      * by rewrite Hr.
      * rewrite Hr. change (compile_call gl P :: cs)
          with ([compile_call gl P] ++ cs)%list. by rewrite count_app, Hc.
      * intros gl0 Hgl0 _. rewrite Hgl'. simpl. rewrite lookup_insert_eq.
        simpl. congruence.
    + split.
      * intros sh' S'. rewrite Hsh, Hprs. intros HS'.
        destruct (Hok1 _ _ Hok HS') as [HP' HG'%elem_of_dom]. split.
        -- destruct (decide (Shader.program S = Shader.program S'))
             as [<-|Hne].
           ++ by rewrite lookup_insert_eq.
           ++ by rewrite lookup_insert_ne.
        -- apply elem_of_dom. rewrite Hgr.
           change (groups sb) with (groups sa). by rewrite Hdom.
      * intros p' Q. rewrite Hprs. intros HQ uid' r' Hr'.
        destruct (decide (Shader.program S = p')) as [<-|Hne].
        -- rewrite lookup_insert_eq in HQ. simplify_eq. simpl in Hr'.
           destruct (decide (Renderer.CONTEXT_UID (renderer s) = uid'))
             as [<-|Hne'].
           ++ rewrite lookup_insert_eq in Hr'. by simplify_eq.
           ++ rewrite lookup_insert_ne in Hr' by done.
              destruct (Hok2 _ _ _ _ Hok HP Hr') as [GLP' HGLP'].
              rewrite <-(fmap_is_Some GLProgram.program), Hkeep by done.
              by rewrite HGLP'.
        -- rewrite lookup_insert_ne in HQ by done.
           destruct (Hok2 _ _ _ _ Hok HQ Hr') as [GLP' HGLP'].
           rewrite <-(fmap_is_Some GLProgram.program), Hkeep by done.
           by rewrite HGLP'.
Qed.

End Bind.

(** ** Signatures *)

Section Signature.
Context {SyncFunc : Type}.
Implicit Types (g : UniformGroup.t SyncFunc).
Implicit Types (ud : list (string * UniformDecl)).

(** The strings pushed by the loop depend on the member names and on the
    type each name has in [uniformData], never on the values. *)
Lemma signature_strings_names (us1 us2 : list (string * UniformValue))
    ud1 ud2 :
  JSObject.keys us1 = JSObject.keys us2 →
  (∀ i, i ∈ JSObject.keys us1 →
        type <$> JSObject.get ud1 i = type <$> JSObject.get ud2 i) →
  signature_strings us1 ud1 = signature_strings us2 ud2.
Proof.
  unfold JSObject.keys.
  revert us2; induction us1 as [|[i v] us1 IH]; intros [|[j w] us2] Hk Hty;
    simplify_eq/=; [done|].
  assert (Hi : type <$> JSObject.get ud1 j = type <$> JSObject.get ud2 j)
    by (apply Hty; left).
  rewrite (IH us2) by (done || (intros; apply Hty; by right)).
  destruct (JSObject.get ud1 j), (JSObject.get ud2 j); simplify_eq/=;
    congruence.
Qed.

(** C2.  Two uniform groups whose members have the same names in the same
    iteration order, each name with the same introspected type (or with
    none on both sides), get the same signature, whatever values, ids,
    flags and dirty counters the groups hold. *)
Theorem getSignature_names_and_types g1 g2 ud1 ud2 :
  JSObject.keys (UniformGroup.uniforms g1)
  = JSObject.keys (UniformGroup.uniforms g2) →
  (∀ i, i ∈ JSObject.keys (UniformGroup.uniforms g1) →
        type <$> JSObject.get ud1 i = type <$> JSObject.get ud2 i) →
  getSignature g1 ud1 = getSignature g2 ud2.
Proof.
  intros Hk Hty. unfold getSignature.
  by rewrite (signature_strings_names _ _ _ _ Hk Hty).
Qed.

End Signature.

(** Groups [0] and [1] of the scene hold different colours under the same
    name; their signatures under program A agree. *)
Lemma getSignature_names_and_types_witness :
  getSignature (Scene.group 20 true [("uColor", UArray [1; 1; 1; 1]%Z)])
    (Program.uniformData Scene.programA)
  = getSignature (Scene.group 21 false [("uColor", UArray [0; 0; 0; 1]%Z)])
      (Program.uniformData Scene.programA).
Proof.
  apply getSignature_names_and_types.
  - reflexivity.
  - intros i _. reflexivity.
Defined.

(** C10.  The signature is not injective on shapes.  A group with the one
    member [uColor-vec4] and a group with the one member [uColor] get the
    same key under a program that declares [uColor] as [vec4]; and with no
    declared types at all, the one member [a-b] collides with the two
    members [a] and [b].  In both pairs the member names differ. *)
Theorem getSignature_collision :
  let ud := [("uColor", mkUniformDecl "vec4" 1)] in
  let plain := Scene.group 30 false [("uColor", UNumber 0)] in
  let dashed := Scene.group 31 false [("uColor-vec4", UNumber 0)] in
  let one := Scene.group 32 false [("a-b", UNumber 0)] in
  let two := Scene.group 33 false [("a", UNumber 0); ("b", UNumber 0)] in
  JSObject.keys (UniformGroup.uniforms plain)
  ≠ JSObject.keys (UniformGroup.uniforms dashed) ∧
  getSignature plain ud = "uColor-vec4" ∧
  getSignature dashed ud = "uColor-vec4" ∧
  JSObject.keys (UniformGroup.uniforms one)
  ≠ JSObject.keys (UniformGroup.uniforms two) ∧
  getSignature one [] = "a-b" ∧
  getSignature two [] = "a-b".
Proof. repeat split; done. Qed.

(** ** Construction, reset and unbound use *)

Section Lifecycle.
Context {SyncFunc : Type} {U : Utils SyncFunc}.
Implicit Types (s : State SyncFunc).

(** C8.  Where [unsafeEvalSupported()] answers false the constructor
    throws: it yields an [Error] and no instance, and the module counter is
    left as it was. *)
Theorem constructor_requires_unsafe_eval (UID : nat) :
  unsafeEvalSupported = false →
  ∃ message, constructor UID = (inl (Error message), UID).
Proof.
  intros Hno. unfold constructor, systemCheck. rewrite Hno. simpl. eauto.
Qed.

(** Where it answers true, the instance starts with nothing bound and an
    empty cache. *)
Lemma constructor_supported (UID : nat) :
  unsafeEvalSupported = true →
  constructor UID = (inr (mk None None None ∅ UID false), Datatypes.S UID).
Proof. intros Hyes. unfold constructor, systemCheck. by rewrite Hyes. Qed.

(** C9.  [reset] returns normally, makes no call, unsets the tracked
    shader and program, and changes nothing else: not the cache of
    routines, not any program with its map of GL programs, not any GL
    program, group or shader of the store. *)
Theorem reset_clears_tracking_only s :
  ∃ s', reset s = (s', [], inr ()) ∧
    shader (this s') = None ∧ program (this s') = None ∧
    cache (this s') = cache (this s) ∧
    programs s' = programs s ∧ glprograms s' = glprograms s ∧
    groups s' = groups s ∧ shaders s' = shaders s ∧
    renderer s' = renderer s ∧
    gl (this s') = gl (this s) ∧ id (this s') = id (this s) ∧
    destroyed (this s') = destroyed (this s).
Proof. eexists. rewrite reset_eq. by repeat split. Qed.

(** C6, as the code has it.  With no shader bound, [setUniforms] makes no
    call and leaves the state alone, but it is not silent: reading
    [this.shader.program] throws a [TypeError]. *)
Theorem setUniforms_unbound_throws s uniforms :
  shader (this s) = None →
  setUniforms uniforms s = (s, [], inl TypeError).
Proof.
  intros Hsh. unfold setUniforms. mrun.
  by rewrite (seq_fail _ _ _ _ _ _ (bound_program_unbound _ Hsh)).
Qed.

End Lifecycle.

Lemma constructor_requires_unsafe_eval_witness :
  ∃ message,
    constructor (U := Scene.utils_no_eval) 4 = (inl (Error message), 4).
Proof.
  apply (constructor_requires_unsafe_eval (U := Scene.utils_no_eval) 4).
  reflexivity.
Defined.

Lemma setUniforms_unbound_throws_witness :
  setUniforms [("uColor", UNumber 1)] Scene.initial
  = (Scene.initial, [], inl TypeError).
Proof.
  apply setUniforms_unbound_throws. reflexivity.
Defined.

(** C6, as the claim has it: no shader is bound in the initial scene, and
    [setUniforms] does not return normally there. *)
Lemma setUniforms_unbound_not_silent :
  shader (this Scene.initial) = None ∧
  outcome_of
    (setUniforms [("uColor", UNumber 1)] Scene.initial)
  ≠ inr ().
Proof. split; [reflexivity|]. vm_compute. discriminate. Qed.

(** ** Synchronising a static group twice *)

Section StaticGroup.
Context {SyncFunc : Type} {U : Utils SyncFunc}.
Implicit Types (s : State SyncFunc) (G : UniformGroup.t SyncFunc).

(** C1.  A shader is bound and its program is compiled under the current
    context (GL program [r]); [g] is a static group whose [dirtyId] is not
    yet recorded against [r], that is, this (group, program, dirtyId)
    triple has not been synchronised yet.  Then the first
    [syncUniformGroup g] calls the synchronisation routine once; it leaves
    the group's [dirtyId], [static] flag and [id] as they were; and the
    second call, made on the state the first one left, returns without any
    call and without any change of state.  The two calls together upload
    exactly once. *)
Theorem syncUniformGroup_static_twice s g r G sh S P GLP :
  shader (this s) = Some sh →
  shaders s !! sh = Some S →
  programs s !! Shader.program S = Some P →
  Program.glPrograms P !! Renderer.CONTEXT_UID (renderer s) = Some r →
  glprograms s !! r = Some GLP →
  groups s !! g = Some G →
  UniformGroup.static G = true →
  GLProgram.uniformGroups GLP !! UniformGroup.id G
  ≠ Some (UniformGroup.dirtyId G) →
  ∃ s1 f G1,
    syncUniformGroup g s = (s1, [SyncFuncCall f r g], inr ()) ∧
    groups s1 !! g = Some G1 ∧
    UniformGroup.dirtyId G1 = UniformGroup.dirtyId G ∧
    UniformGroup.static G1 = true ∧
    UniformGroup.id G1 = UniformGroup.id G ∧
    syncUniformGroup g s1 = (s1, [], inr ()) ∧
    count is_upload
      (calls_of (syncUniformGroup g s) ++ calls_of (syncUniformGroup g s1))
    = 1.
Proof.
  intros Hsh HS HP Hr HGLP HG Hst Hrec.
  assert (Hup : up_to_date G GLP = false).
  { unfold up_to_date. rewrite Hst. simpl. by apply bool_decide_eq_false. }
  pose proof (syncUniformGroup_dirty _ _ _ _ _ _ _ _
                Hsh HS HP Hr HGLP HG Hup) as Hfirst.
  set (s0 := with_glprogram s r (recorded GLP G)) in *.
  assert (HG0 : groups s0 !! g = Some G) by done.
  destruct (synced_group_lookup s0 g G P HG0) as (G1&HG1&Hid&Hst1&Hd1&_).
  destruct (synced_frame s0 g G P HG0) as (Hshs&Hprs&Hre&_&Hshd&_&_&_).
  assert (Hsecond : syncUniformGroup g (synced s0 g G P)
                    = (synced s0 g G P, [], inr ())).
  { eapply (syncUniformGroup_clean _ g r G1 sh S P (recorded GLP G)).
    - by rewrite Hshd.
    - by rewrite Hshs.
    - by rewrite Hprs.
    - by rewrite Hre.
    - rewrite synced_glprograms. simpl. by rewrite lookup_insert_eq.
    - done.
    - unfold up_to_date. rewrite Hst1, Hst, Hid, Hd1. simpl.
      apply bool_decide_eq_true. by rewrite lookup_insert_eq. }
  exists (synced s0 g G P), (syncFunc_of s G P), G1.
  rewrite Hfirst, Hsecond. repeat split; try done. congruence.
Qed.

End StaticGroup.

Lemma syncUniformGroup_static_twice_witness :
  ∃ s1 f G1,
    syncUniformGroup 0 Scene.bound0 = (s1, [SyncFuncCall f 0 0], inr ()) ∧
    groups s1 !! 0 = Some G1 ∧
    UniformGroup.dirtyId G1 = 0%Z ∧
    UniformGroup.static G1 = true ∧
    UniformGroup.id G1 = 20 ∧
    syncUniformGroup 0 s1 = (s1, [], inr ()) ∧
    count is_upload
      (calls_of (syncUniformGroup 0 Scene.bound0)
       ++ calls_of (syncUniformGroup 0 s1))
    = 1.
Proof.
  eapply (syncUniformGroup_static_twice Scene.bound0 0 0
            (UniformGroup.mk
               [("uColor", UArray [1; 1; 1; 1]%Z); ("globals", UGroup 9)]
               20 true 0 ∅)
            0 (Shader.mk 0 0)
            (Program.set_glPrograms Scene.programA {[1 := 0]})
            (GLProgram.mk 513
               [("uColor", mkGLUniform (Some 6) (UNumber 0))] ∅)).
  - reflexivity.
  - reflexivity.
  - reflexivity.
  - reflexivity.
  - reflexivity.
  - reflexivity.
  - reflexivity.
  - vm_compute. discriminate.
Defined.

(** ** Where a generated routine is kept *)

Section RoutineCaches.
Context {SyncFunc : Type} {U : Utils SyncFunc}.
Implicit Types (s : State SyncFunc) (G : UniformGroup.t SyncFunc).

(** C7, as the code has it.  On a miss of [this.cache] the generated
    routine [f] is stored in [this.cache] under the group's signature and
    in the group's own [syncUniforms] map under the id of the bound
    program; no program and no GL program is touched.  From then on
    [syncUniforms] of that group under that program calls [f] straight from
    the group: whatever [this.cache] holds, it calls [f] and changes
    nothing. *)
Theorem createSyncGroups_stores_routine s g G sh S P :
  shader (this s) = Some sh →
  shaders s !! sh = Some S →
  programs s !! Shader.program S = Some P →
  groups s !! g = Some G →
  cache (this s) !! getSignature G (Program.uniformData P) = None →
  ∃ s' G',
    let f := generateUniformsSync G (Program.uniformData P) in
    createSyncGroups g s = (s', [], inr f) ∧
    cache (this s') !! getSignature G (Program.uniformData P) = Some f ∧
    groups s' !! g = Some G' ∧
    UniformGroup.syncUniforms G' !! Program.id P = Some f ∧
    programs s' = programs s ∧
    glprograms s' = glprograms s ∧
    ∀ r GLP c,
      glprograms s' !! r = Some GLP →
      syncUniforms g r (with_this s' (set_cache (this s') c))
      = (with_this s' (set_cache (this s') c), [SyncFuncCall f r g], inr ()).
Proof.
  intros Hsh HS HP HG Hmiss.
  rewrite (createSyncGroups_eq _ _ _ _ _ _ Hsh HS HP HG).
  pose proof (cached_lookup s G P) as Hc.
  destruct (cached_frame s G P) as (Hshs&Hprs&Hgrs&Hgls&Hre&_&Hshd&_).
  assert (Hf : routine_for s G P
               = generateUniformsSync G (Program.uniformData P)).
  { unfold routine_for. by rewrite Hmiss. }
  rewrite Hf in *.
  eexists _, _. cbn zeta. split; [done|]. simpl.
  split; [done|]. split; [by rewrite lookup_insert_eq|].
  split; [simpl; by rewrite lookup_insert_eq|].
  split; [done|]. split; [done|].
  intros r GLP c HGLP.
  eapply syncUniforms_hit; simpl.
  - by rewrite Hshd.
  - by rewrite Hshs.
  - by rewrite Hprs.
  - by rewrite lookup_insert_eq.
  - exact HGLP.
  - simpl. by rewrite lookup_insert_eq.
Qed.

End RoutineCaches.

Lemma createSyncGroups_stores_routine_witness :
  ∃ s' G',
    let f := ["uColor"; "vec4"; "globals"] in
    createSyncGroups 0 Scene.bound0 = (s', [], inr f) ∧
    cache (this s') !! "uColor-vec4-globals" = Some f ∧
    groups s' !! 0 = Some G' ∧
    UniformGroup.syncUniforms G' !! 7 = Some f ∧
    programs s' = programs Scene.bound0 ∧
    glprograms s' = glprograms Scene.bound0 ∧
    ∀ r GLP c,
      glprograms s' !! r = Some GLP →
      syncUniforms 0 r (with_this s' (set_cache (this s') c))
      = (with_this s' (set_cache (this s') c), [SyncFuncCall f r 0], inr ()).
Proof.
  refine (createSyncGroups_stores_routine Scene.bound0 0
            (UniformGroup.mk
               [("uColor", UArray [1; 1; 1; 1]%Z); ("globals", UGroup 9)]
               20 true 0 ∅)
            0 (Shader.mk 0 0)
            (Program.set_glPrograms Scene.programA {[1 := 0]}) _ _ _ _ _).
  - reflexivity.
  - reflexivity.
  - reflexivity.
  - reflexivity.
  - reflexivity.
Defined.

(** C7, as the claim has it: in the scene, after a miss, the routine is in
    the cache and in group [0] under program id [7], and the GL program the
    group was synchronised against is exactly what it was: nothing is
    attached to it.  Accordingly the routine outlives the GL program: once
    the context is restored and program A is compiled anew, as GL program
    [1] under uid [2], group [0] still holds the routine under id [7]. *)
Lemma createSyncGroups_leaves_GLProgram :
  let s := Scene.bound0 in
  let s' := state_of (createSyncGroups 0 s) in
  let s2 :=
    state_of (bind 0 true (state_of (contextChange 6 Scene.restored))) in
  cache (this s) !! "uColor-vec4-globals" = None ∧
  cache (this s') !! "uColor-vec4-globals"
  = Some ["uColor"; "vec4"; "globals"] ∧
  (UniformGroup.syncUniforms <$> groups s' !! 0)
  = Some {[7 := ["uColor"; "vec4"; "globals"]]} ∧
  glprograms s' !! 0 = glprograms s !! 0 ∧
  glprograms s' = glprograms s ∧
  (Program.glPrograms <$> programs s2 !! 0) = Some {[1 := 0; 2 := 1]} ∧
  (UniformGroup.syncUniforms <$> groups s2 !! 0)
  = Some {[7 := ["uColor"; "vec4"; "globals"]]}.
Proof. vm_compute. repeat split; reflexivity. Qed.

(** ** Sequences of binds *)

Section Binds.
Context {SyncFunc : Type} {U : Utils SyncFunc}.
Implicit Types (s : State SyncFunc) (cs : list (Call SyncFunc)).
Implicit Types (P : Program.t) (S : Shader.t).

Lemma bind_keeps_bindable s sh S P dontSync s' cs r gl sh' :
  programs s !! Shader.program S = Some P →
  bind_post s sh S P dontSync s' cs r →
  bindable s gl sh' → bindable s' gl sh'.
Proof.
  intros HP Hpost (S'&P'&HS'&HP'&Hcomp).
  destruct (decide (Shader.program S = Shader.program S')) as [Heq|Hne].
  - exists S', (Program.set_glPrograms P
                 (<[Renderer.CONTEXT_UID (renderer s) := r]>
                    (Program.glPrograms P))).
    rewrite (post_shaders _ _ _ _ _ _ _ _ Hpost).
    rewrite (post_programs _ _ _ _ _ _ _ _ Hpost).
    rewrite <-Heq, lookup_insert_eq. repeat split; [done|].
    rewrite <-Heq in HP'. by simplify_eq.
  - exists S', P'.
    rewrite (post_shaders _ _ _ _ _ _ _ _ Hpost).
    rewrite (post_programs _ _ _ _ _ _ _ _ Hpost).
    by rewrite lookup_insert_ne.
Qed.

Lemma binds_switches calls : ∀ s gl,
  store_ok s →
  ShaderSystem.gl (this s) = Some gl →
  Forall (λ c, bindable s gl c.1) calls →
  ∃ traces,
    binds calls s = Some traces ∧
    count is_UseProgram <$> traces
    = switches (program (this s)) (programs_of s calls).
Proof.
  induction calls as [|[sh d] calls IH]; intros s gl Hok Hgl Hall.
  { by exists []. }
  apply Forall_cons in Hall as [(S&P&HS&HP&Hcomp) Hall]. simpl in HS.
  destruct (bind_ok s sh S P gl d Hok HS HP Hgl (λ _, Hcomp))
    as (s'&cs&r&Hbind&Hpost&Hok').
  destruct (IH s' gl) as (traces&Hrest&Hcount).
  - done.
  - by rewrite (post_gl _ _ _ _ _ _ _ _ Hpost).
  - eapply Forall_impl; [exact Hall|]. intros c.
    by eapply bind_keeps_bindable.
  - exists (cs :: traces). simpl. rewrite Hbind, Hrest. split; [done|].
    unfold programs_of in *. simpl. rewrite HS. simpl.
    rewrite (post_program _ _ _ _ _ _ _ _ Hpost) in Hcount.
    rewrite (post_shaders _ _ _ _ _ _ _ _ Hpost) in Hcount.
    f_equal; [exact (post_use _ _ _ _ _ _ _ _ Hpost)|exact Hcount].
Qed.

(** C3.  From a well-formed store with a GL context, any sequence of
    [bind] calls on bindable shaders goes through, and each call issues
    [useProgram] once when its shader's program differs from the program
    tracked just before the call, and not at all when it is the same.  In
    particular, for shaders [A] and [B] with distinct programs, [A]'s
    program not being the tracked one at the start, the calls [bind(A)],
    [bind(A)], [bind(B)], [bind(A)] issue [useProgram] on the first, third
    and fourth call and not on the second. *)
Theorem bind_useProgram_only_on_change s gl calls A B SA SB PA PB
    (d1 d2 d3 d4 : bool) :
  store_ok s →
  ShaderSystem.gl (this s) = Some gl →
  Forall (λ c, bindable s gl c.1) calls →
  shaders s !! A = Some SA →
  shaders s !! B = Some SB →
  programs s !! Shader.program SA = Some PA →
  programs s !! Shader.program SB = Some PB →
  compiles gl PA →
  compiles gl PB →
  Shader.program SA ≠ Shader.program SB →
  program (this s) ≠ Some (Shader.program SA) →
  (∃ traces,
     binds calls s = Some traces ∧
     count is_UseProgram <$> traces
     = switches (program (this s)) (programs_of s calls)) ∧
  (∃ t1 t2 t3 t4,
     binds [(A, d1); (A, d2); (B, d3); (A, d4)] s = Some [t1; t2; t3; t4] ∧
     count is_UseProgram t1 = 1 ∧ count is_UseProgram t2 = 0 ∧
     count is_UseProgram t3 = 1 ∧ count is_UseProgram t4 = 1).
Proof.
  intros Hok Hgl Hall HA HB HPA HPB HcA HcB Hne Hstart.
  split; [by eapply binds_switches|].
  assert (HbA : bindable s gl A) by (by exists SA, PA).
  assert (HbB : bindable s gl B) by (by exists SB, PB).
  destruct (binds_switches [(A, d1); (A, d2); (B, d3); (A, d4)] s gl Hok Hgl)
    as (traces&Hrun&Hcount).
  { repeat constructor; done. }
  unfold programs_of in Hcount. simpl in Hcount.
  rewrite HA, HB in Hcount. simpl in Hcount.
  rewrite decide_False in Hcount by done.
  rewrite decide_True in Hcount by done.
  rewrite decide_False in Hcount by congruence.
  rewrite decide_False in Hcount by congruence.
  destruct traces as [|t1 [|t2 [|t3 [|t4 [|]]]]]; simplify_eq/=.
  by exists t1, t2, t3, t4.
Qed.

(** C4.  Two distinct shaders [sh1] and [sh2] refer to the same program.
    Binding [sh1] and then [sh2], with nothing in between, goes through
    when the program is compiled or compiles; both calls return the same
    GL program; the second call neither compiles nor issues [useProgram];
    and the two calls together compile at most once. *)
Theorem bind_shared_program s gl sh1 sh2 S1 S2 P (d1 d2 : bool) :
  store_ok s →
  ShaderSystem.gl (this s) = Some gl →
  sh1 ≠ sh2 →
  shaders s !! sh1 = Some S1 →
  shaders s !! sh2 = Some S2 →
  Shader.program S1 = Shader.program S2 →
  programs s !! Shader.program S1 = Some P →
  (Program.glPrograms P !! Renderer.CONTEXT_UID (renderer s) = None →
   compiles gl P) →
  ∃ s1 cs1 r1 s2 cs2 r2,
    bind sh1 d1 s = (s1, cs1, inr r1) ∧
    bind sh2 d2 s1 = (s2, cs2, inr r2) ∧
    renderer s1 = renderer s ∧
    r2 = r1 ∧
    count is_CompileProgram cs2 = 0 ∧
    count is_UseProgram cs2 = 0 ∧
    (count is_CompileProgram (cs1 ++ cs2) ≤ 1)%nat.
Proof.
  intros Hok Hgl _ HS1 HS2 Hsame HP Hcomp.
  destruct (bind_ok s sh1 S1 P gl d1 Hok HS1 HP Hgl Hcomp)
    as (s1&cs1&r1&Hb1&Hpost1&Hok1).
  set (P1 := Program.set_glPrograms P
               (<[Renderer.CONTEXT_UID (renderer s) := r1]>
                  (Program.glPrograms P))).
  assert (HP1 : programs s1 !! Shader.program S2 = Some P1).
  { rewrite (post_programs _ _ _ _ _ _ _ _ Hpost1), <-Hsame.
    by rewrite lookup_insert_eq. }
  assert (Hr1 : Program.glPrograms P1 !! Renderer.CONTEXT_UID (renderer s1)
                = Some r1).
  { rewrite (post_renderer _ _ _ _ _ _ _ _ Hpost1). simpl.
    by rewrite lookup_insert_eq. }
  destruct (bind_ok s1 sh2 S2 P1 gl d2 Hok1) as (s2&cs2&r2&Hb2&Hpost2&_).
  { by rewrite (post_shaders _ _ _ _ _ _ _ _ Hpost1). }
  { done. }
  { by rewrite (post_gl _ _ _ _ _ _ _ _ Hpost1). }
  { intros Hnone. congruence. }
  exists s1, cs1, r1, s2, cs2, r2.
  pose proof (post_resolved _ _ _ _ _ _ _ _ Hpost2) as Hres.
  pose proof (post_compile _ _ _ _ _ _ _ _ Hpost2) as Hc2.
  pose proof (post_use _ _ _ _ _ _ _ _ Hpost2) as Hu2.
  pose proof (post_compile _ _ _ _ _ _ _ _ Hpost1) as Hc1.
  rewrite Hr1 in Hres, Hc2.
  rewrite (post_program _ _ _ _ _ _ _ _ Hpost1), Hsame in Hu2.
  rewrite decide_True in Hu2 by done.
  repeat split; try done.
  - exact (post_renderer _ _ _ _ _ _ _ _ Hpost1).
  - rewrite count_app, Hc1, Hc2. case_match; lia.
Qed.

(** C5.  After [contextChange(gl')], with the renderer's [CONTEXT_UID]
    naming the context now in use, the next [bind] goes through when the
    program is compiled under that uid or compiles.  It calls the compiler
    exactly when the program has no GL program under that uid.  What it
    returns is the entry under that uid; when there was none, it is a new
    GL program, different from every GL program stored under any uid, and
    its handle is the one the compiler just returned for [gl'].  The
    entries under every other uid stay where they were, and every GL
    program of the store keeps its handle. *)
Theorem bind_after_contextChange s gl' sh S P (dontSync : bool) :
  store_ok s →
  shaders s !! sh = Some S →
  programs s !! Shader.program S = Some P →
  (Program.glPrograms P !! Renderer.CONTEXT_UID (renderer s) = None →
   compiles gl' P) →
  let uid := Renderer.CONTEXT_UID (renderer s) in
  ∃ s' cs r P',
    bind sh dontSync (state_of (contextChange gl' s)) = (s', cs, inr r) ∧
    (count is_CompileProgram cs = 1 ↔ Program.glPrograms P !! uid = None) ∧
    (count is_CompileProgram cs = 0 ↔ is_Some (Program.glPrograms P !! uid)) ∧
    (∀ r0, Program.glPrograms P !! uid = Some r0 → r = r0) ∧
    (Program.glPrograms P !! uid = None →
       (∀ uid' r', Program.glPrograms P !! uid' = Some r' → r ≠ r') ∧
       GLProgram.program <$> glprograms s' !! r
       = compileProgram gl' (Program.vertexSrc P) (Program.fragmentSrc P)
           (attribMap_of P)) ∧
    programs s' !! Shader.program S = Some P' ∧
    Program.glPrograms P' !! uid = Some r ∧
    (∀ uid', uid' ≠ uid →
       Program.glPrograms P' !! uid' = Program.glPrograms P !! uid') ∧
    (∀ r', is_Some (glprograms s !! r') →
       GLProgram.program <$> glprograms s' !! r'
       = GLProgram.program <$> glprograms s !! r').
Proof.
  intros Hok HS HP Hcomp uid. rewrite contextChange_eq.
  unfold state_of. simpl.
  set (s0 := with_this s _).
  assert (Hok0 : store_ok s0) by exact Hok.
  destruct (bind_ok s0 sh S P gl' dontSync Hok0 HS HP eq_refl Hcomp)
    as (s'&cs&r&Hbind&Hpost&_).
  pose proof (post_resolved _ _ _ _ _ _ _ _ Hpost) as Hres.
  pose proof (post_compile _ _ _ _ _ _ _ _ Hpost) as Hc.
  pose proof (post_programs _ _ _ _ _ _ _ _ Hpost) as Hprs.
  pose proof (post_handle _ _ _ _ _ _ _ _ Hpost gl' eq_refl) as Hh.
  simpl in Hres, Hc, Hprs, Hh. fold uid in Hres, Hc, Hprs, Hh.
  exists s', cs, r,
    (Program.set_glPrograms P (<[uid := r]> (Program.glPrograms P))).
  split; [done|].
  destruct (Program.glPrograms P !! uid) as [r0|] eqn:Hr.
  - repeat split; try done; try (by rewrite Hc); try (intros; congruence).
    + by rewrite Hprs, lookup_insert_eq.
    + simpl. by rewrite lookup_insert_eq.
    + intros uid' Hne. simpl. by rewrite lookup_insert_ne.
    + exact (post_glprograms _ _ _ _ _ _ _ _ Hpost).
  - repeat split; try done; try (by rewrite Hc); try (intros; congruence).
    + intros uid' r' Hr' Heq. rewrite Hres in Heq. subst r'.
      destruct (store_ok_glprogram _ _ _ _ _ Hok HP Hr') as [? Hin].
      apply elem_of_dom_2 in Hin. by apply is_fresh in Hin.
    + by apply Hh.
    + by rewrite Hprs, lookup_insert_eq.
    + simpl. by rewrite lookup_insert_eq.
    + intros uid' Hne. simpl. by rewrite lookup_insert_ne.
    + exact (post_glprograms _ _ _ _ _ _ _ _ Hpost).
Qed.

End Binds.

(** ** The theorems on the scene *)

Lemma scene_bindable (sh : nat) :
  sh < 3 → bindable Scene.initial 5 sh.
Proof.
  intros Hsh.
  destruct sh as [|[|[|sh]]]; [| | |lia];
    eexists _, _; (split; [reflexivity|]); (split; [reflexivity|]);
    eexists; reflexivity.
Defined.

Lemma bind_useProgram_only_on_change_witness :
  (∃ traces,
     binds [(2, true); (0, false); (1, false)] Scene.initial = Some traces ∧
     count is_UseProgram <$> traces = [1; 1; 0]) ∧
  (∃ t1 t2 t3 t4,
     binds [(0, false); (0, false); (2, false); (0, true)] Scene.initial
     = Some [t1; t2; t3; t4] ∧
     count is_UseProgram t1 = 1 ∧ count is_UseProgram t2 = 0 ∧
     count is_UseProgram t3 = 1 ∧ count is_UseProgram t4 = 1).
Proof.
  refine (bind_useProgram_only_on_change Scene.initial 5
            [(2, true); (0, false); (1, false)] 0 2
            (Shader.mk 0 0) (Shader.mk 1 2) Scene.programA Scene.programB
            false false false true _ _ _ _ _ _ _ _ _ _ _).
  - apply (bool_decide_unpack _). vm_compute. exact I.
  - reflexivity.
  - repeat constructor; apply scene_bindable; simpl; lia.
  - reflexivity.
  - reflexivity.
  - reflexivity.
  - reflexivity.
  - eexists; reflexivity.
  - eexists; reflexivity.
  - simpl. lia.
  - simpl. discriminate.
Defined.

Lemma bind_shared_program_witness :
  ∃ s1 cs1 r1 s2 cs2 r2,
    bind 0 false Scene.initial = (s1, cs1, inr r1) ∧
    bind 1 false s1 = (s2, cs2, inr r2) ∧
    renderer s1 = renderer Scene.initial ∧
    r2 = r1 ∧
    count is_CompileProgram cs2 = 0 ∧
    count is_UseProgram cs2 = 0 ∧
    (count is_CompileProgram (cs1 ++ cs2) ≤ 1)%nat.
Proof.
  refine (bind_shared_program Scene.initial 5 0 1
            (Shader.mk 0 0) (Shader.mk 0 1) Scene.programA false false
            _ _ _ _ _ _ _ _).
  - apply (bool_decide_unpack _). vm_compute. exact I.
  - reflexivity.
  - lia.
  - reflexivity.
  - reflexivity.
  - reflexivity.
  - reflexivity.
  - intros _. eexists; reflexivity.
Defined.

Lemma bind_after_contextChange_witness :
  let P := Program.set_glPrograms Scene.programA {[1 := 0]} in
  ∃ s' cs r P',
    bind 0 false (state_of (contextChange 6 Scene.restored))
    = (s', cs, inr r) ∧
    (count is_CompileProgram cs = 1 ↔ Program.glPrograms P !! 2 = None) ∧
    (count is_CompileProgram cs = 0 ↔ is_Some (Program.glPrograms P !! 2)) ∧
    (∀ r0, Program.glPrograms P !! 2 = Some r0 → r = r0) ∧
    (Program.glPrograms P !! 2 = None →
       (∀ uid' r', Program.glPrograms P !! uid' = Some r' → r ≠ r') ∧
       GLProgram.program <$> glprograms s' !! r
       = compileProgram 6 (Program.vertexSrc P) (Program.fragmentSrc P)
           (attribMap_of P)) ∧
    programs s' !! 0 = Some P' ∧
    Program.glPrograms P' !! 2 = Some r ∧
    (∀ uid', uid' ≠ 2 →
       Program.glPrograms P' !! uid' = Program.glPrograms P !! uid') ∧
    (∀ r', is_Some (glprograms Scene.restored !! r') →
       GLProgram.program <$> glprograms s' !! r'
       = GLProgram.program <$> glprograms Scene.restored !! r').
Proof.
  refine (bind_after_contextChange Scene.restored 6 0 (Shader.mk 0 0)
            (Program.set_glPrograms Scene.programA {[1 := 0]}) false
            _ _ _ _).
  - apply (bool_decide_unpack _). vm_compute. exact I.
  - reflexivity.
  - reflexivity.
  - intros _. eexists; reflexivity.
Defined.

Local Open Scope list_scope.

(** ** Objects in iteration order: reading what was written *)

Section JSObjectFacts.
Context {A : Type}.
Implicit Types (o : list (string * A)) (k : string) (v : A).

Lemma get_set_eq o k v : JSObject.get (JSObject.set o k v) k = Some v.
Proof.
  induction o as [|[k' v'] o IH]; simpl.
  - by rewrite decide_True.
  - destruct (decide (k' = k)) as [->|Hne]; simpl.
    + by rewrite decide_True.
    + by rewrite decide_False.
Qed.

Lemma get_set_ne o k k' v :
  k ≠ k' → JSObject.get (JSObject.set o k v) k' = JSObject.get o k'.
Proof.
  intros Hne. induction o as [|[k0 v0] o IH]; simpl.
  - by rewrite decide_False.
  - destruct (decide (k0 = k)) as [->|Hne0]; simpl.
    + by rewrite !decide_False.
    + by rewrite IH.
Qed.

Lemma set_fresh o k v :
  k ∉ JSObject.keys o → JSObject.set o k v = o ++ [(k, v)].
Proof.
  unfold JSObject.keys. induction o as [|[k' v'] o IH]; simpl; [done|].
  intros Hnin. apply not_elem_of_cons in Hnin as [Hne Hnin].
  rewrite decide_False by done. by rewrite IH.
Qed.

Lemma keys_set_present o k v :
  k ∈ JSObject.keys o → JSObject.keys (JSObject.set o k v) = JSObject.keys o.
Proof.
  unfold JSObject.keys. induction o as [|[k' v'] o IH]; simpl.
  - by intros ?%elem_of_nil.
  - intros Hin. destruct (decide (k' = k)) as [->|Hne]; simpl; [done|].
    apply elem_of_cons in Hin as [?|Hin]; [congruence|].
    f_equal. by apply IH.
Qed.

Lemma set_set o k v v' :
  JSObject.set (JSObject.set o k v) k v' = JSObject.set o k v'.
Proof.
  induction o as [|[k' v0] o IH]; simpl.
  - by rewrite decide_True.
  - destruct (decide (k' = k)) as [->|Hne]; simpl.
    + by rewrite decide_True.
    + by rewrite decide_False, IH.
Qed.

(** A loop [for (i in src) dst[i] = f(i, src[i])] over distinct names
    builds one entry per name, in the order of [src]. *)
Lemma foldl_set_distinct {B} (f : string → B → A) (src : list (string * B)) :
  ∀ acc,
  NoDup (JSObject.keys acc ++ JSObject.keys src) →
  foldl (λ m '(i, b), JSObject.set m i (f i b)) acc src
  = acc ++ ((λ '(i, b), (i, f i b)) <$> src).
Proof.
  unfold JSObject.keys.
  induction src as [|[i b] src IH]; intros acc Hnd; simpl.
  - by rewrite app_nil_r.
  - apply NoDup_app in Hnd as (Hacc & Hdisj & Hsrc).
    apply NoDup_cons in Hsrc as [Hi Hsrc].
    rewrite set_fresh.
    2:{ intros Hin. apply (Hdisj _ Hin). left. }
    rewrite IH.
    + by rewrite <-(assoc_L (++)).
    + rewrite fmap_app. simpl. apply NoDup_app. split_and!.
      * apply NoDup_app. split_and!; [done| |apply NoDup_singleton].
        intros x Hx ->%list_elem_of_singleton. apply (Hdisj _ Hx). left.
      * intros x [Hx| ->%list_elem_of_singleton]%elem_of_app Hin.
        -- apply (Hdisj _ Hx). by right.
        -- done.
      * done.
Qed.

End JSObjectFacts.

(** ** When signatures tell shapes apart *)

Section SignatureInjective.
Context {SyncFunc : Type}.
Implicit Types (g : UniformGroup.t SyncFunc).
Implicit Types (ud : list (string * UniformDecl)).

Lemma no_dash_cons c x :
  no_dash (String c x) = true → c ≠ dash ∧ no_dash x = true.
Proof.
  simpl. intros [H1 H2]%andb_true_iff. split; [|done].
  by apply bool_decide_eq_true in H1.
Qed.

Lemma append_empty (s : string) : ("" ++ s)%string = s.
Proof. reflexivity. Qed.

Lemma append_String c (x s : string) :
  (String c x ++ s)%string = String c (x ++ s)%string.
Proof. reflexivity. Qed.

(** A string without separator is not of the form [x-t]. *)
Lemma no_dash_not_joined x t y :
  no_dash y = true → (x ++ String dash t)%string ≠ y.
Proof.
  revert y. induction x as [|c x IH]; intros [|c' y] Hy;
    rewrite ?append_empty, ?append_String; try done.
  - apply no_dash_cons in Hy as [Hc _]. intros Heq. simplify_eq.
  - apply no_dash_cons in Hy as [_ Hy]. intros Heq. simplify_eq.
    by eapply IH.
Qed.

(** The first separator splits a joined string in one way only. *)
Lemma joined_inj x x' t t' :
  no_dash x = true → no_dash x' = true →
  (x ++ String dash t)%string = (x' ++ String dash t')%string →
  x = x' ∧ t = t'.
Proof.
  revert x'. induction x as [|c x IH]; intros [|c' x'] Hx Hx';
    rewrite ?append_empty, ?append_String; intros Heq.
  - by simplify_eq.
  - apply no_dash_cons in Hx' as [Hc _]. simplify_eq.
  - apply no_dash_cons in Hx as [Hc _]. simplify_eq.
  - apply no_dash_cons in Hx as [_ Hx].
    apply no_dash_cons in Hx' as [_ Hx']. simplify_eq.
    destruct (IH x' Hx Hx') as [-> ->]; done.
Qed.

Lemma join_inj (l1 l2 : list string) :
  Forall (λ x, no_dash x = true) l1 →
  Forall (λ x, no_dash x = true) l2 →
  l1 ≠ [] → l2 ≠ [] →
  JSObject.join "-" l1 = JSObject.join "-" l2 → l1 = l2.
Proof.
  unfold JSObject.join.
  revert l2. induction l1 as [|x [|y l1] IH]; intros [|x' [|y' l2]] H1 H2;
    try done; intros _ _; simpl; intros Heq.
  - by subst.
  - apply Forall_cons in H1 as [Hx _]. symmetry in Heq.
    by apply no_dash_not_joined in Heq.
  - apply Forall_cons in H2 as [Hx' _].
    by apply no_dash_not_joined in Heq.
  - apply Forall_cons in H1 as [Hx H1]. apply Forall_cons in H2 as [Hx' H2].
    apply joined_inj in Heq as [-> Heq]; [|done..].
    f_equal. by apply IH.
Qed.

Lemma join_nonempty x (l : list string) :
  x ≠ ""%string → JSObject.join "-" (x :: l) ≠ ""%string.
Proof.
  unfold JSObject.join. destruct x as [|c x]; [done|].
  intros _. by destruct l.
Qed.

(** Under one table of declared types, the strings pushed for two groups
    agree only if the member names agree. *)
Lemma signature_strings_inj (us1 us2 : list (string * UniformValue)) ud :
  signature_strings us1 ud = signature_strings us2 ud →
  JSObject.keys us1 = JSObject.keys us2.
Proof.
  unfold JSObject.keys.
  revert us2. induction us1 as [|[i v] us1 IH]; intros [|[j w] us2]; simpl.
  - done.
  - by destruct (JSObject.get ud j).
  - by destruct (JSObject.get ud i).
  - intros Heq.
    assert (i = j) as ->.
    { destruct (JSObject.get ud i), (JSObject.get ud j); by simplify_eq. }
    f_equal. apply IH. destruct (JSObject.get ud j); by simplify_eq.
Qed.

Lemma signature_strings_no_dash (us : list (string * UniformValue)) ud :
  Forall plain_name (JSObject.keys us) →
  (∀ i d, JSObject.get ud i = Some d → no_dash (type d) = true) →
  Forall (λ x, no_dash x = true) (signature_strings us ud).
Proof.
  unfold JSObject.keys. intros Hus Hud.
  induction us as [|[i v] us IH]; simpl; [done|].
  apply Forall_cons in Hus as [[_ Hi] Hus].
  destruct (JSObject.get ud i) as [d|] eqn:Hd; repeat constructor; eauto.
Qed.

(** X1.  Where no member name is empty or holds a ['-'], and no declared
    type holds a ['-'], two groups with the same signature under one
    program have the same member names in the same order: under these
    conditions the cache of routines never confuses two shapes. *)
Theorem getSignature_injective g1 g2 ud :
  Forall plain_name (JSObject.keys (UniformGroup.uniforms g1)) →
  Forall plain_name (JSObject.keys (UniformGroup.uniforms g2)) →
  (∀ i d, JSObject.get ud i = Some d → no_dash (type d) = true) →
  getSignature g1 ud = getSignature g2 ud →
  JSObject.keys (UniformGroup.uniforms g1)
  = JSObject.keys (UniformGroup.uniforms g2).
Proof.
  unfold getSignature. intros H1 H2 Hud Heq.
  pose proof (signature_strings_no_dash _ _ H1 Hud) as Hd1.
  pose proof (signature_strings_no_dash _ _ H2 Hud) as Hd2.
  destruct (UniformGroup.uniforms g1) as [|[i v] us1] eqn:E1;
    destruct (UniformGroup.uniforms g2) as [|[j w] us2] eqn:E2.
  - done.
  - exfalso. apply Forall_cons in H2 as [[Hj _] _]. simpl in Heq.
    symmetry in Heq. revert Heq.
    destruct (JSObject.get ud j); by apply join_nonempty.
  - exfalso. apply Forall_cons in H1 as [[Hi _] _]. simpl in Heq.
    revert Heq. destruct (JSObject.get ud i); by apply join_nonempty.
  - apply (signature_strings_inj _ _ ud). apply join_inj; try done.
    + simpl. by destruct (JSObject.get ud i).
    + simpl. by destruct (JSObject.get ud j).
Qed.

End SignatureInjective.

Lemma getSignature_injective_witness :
  JSObject.keys
    (UniformGroup.uniforms
       (Scene.group 22 true
          [("uTint", UArray [1; 0; 0; 1]%Z); ("uAlpha", UNumber 1)]))
  = JSObject.keys
      (UniformGroup.uniforms
         (Scene.group 23 false
            [("uTint", UNumber 0); ("uAlpha", UNumber 0)])).
Proof.
  apply (getSignature_injective _ _ (Program.uniformData Scene.programB)).
  - repeat constructor; done.
  - repeat constructor; done.
  - intros i d. simpl. repeat case_decide; intros; by simplify_eq.
  - reflexivity.
Defined.

(** ** [generateShader] *)

Section GenerateShader.
Context {SyncFunc : Type} {U : Utils SyncFunc}.
Implicit Types (s : State SyncFunc) (P : Program.t) (S : Shader.t).

(** X2.  For a program whose attributes and uniforms have distinct names,
    the loops of [generateShader] hand the compiler one location per
    declared attribute and give the new GL program one entry per declared
    uniform, both in declaration order; a uniform's entry holds the
    location the context reports for its name and the default value of its
    declared type and size. *)
Theorem generateShader_tables (gl : WebGLContext) (h : WebGLProgram) P :
  NoDup (JSObject.keys (Program.attributeData P)) →
  NoDup (JSObject.keys (Program.uniformData P)) →
  attribMap_of P
  = (λ '(i, a), (i, location a)) <$> Program.attributeData P ∧
  uniformData_of gl h P
  = (λ '(i, d), (i, mkGLUniform (getUniformLocation gl h i)
                      (defaultValue (type d) (size d))))
    <$> Program.uniformData P.
Proof.
  intros Ha Hu. unfold attribMap_of, uniformData_of. split.
  - by rewrite (foldl_set_distinct (λ _ a, location a)).
  - by rewrite (foldl_set_distinct
                  (λ i d, mkGLUniform (getUniformLocation gl h i)
                            (defaultValue (type d) (size d)))).
Qed.

(** X3.  [generateShader] does not look at what is compiled already: it
    calls the compiler once, makes a GL program no program refers to yet,
    with no group recorded, and stores it under the current context uid in
    place of whatever was there.  The GL programs made before stay in the
    store as they were, the entries under other uids stay, and neither the
    tracked shader and program nor the cache of routines change; nothing
    is bound. *)
Theorem generateShader_always_compiles s sh S P gl h :
  shaders s !! sh = Some S →
  programs s !! Shader.program S = Some P →
  ShaderSystem.gl (this s) = Some gl →
  compileProgram gl (Program.vertexSrc P) (Program.fragmentSrc P)
    (attribMap_of P) = Some h →
  let uid := Renderer.CONTEXT_UID (renderer s) in
  ∃ s' r P',
    generateShader sh s = (s', [compile_call gl P], inr r) ∧
    glprograms s !! r = None ∧
    glprograms s'
    = <[r := GLProgram.mk h (uniformData_of gl h P) ∅]> (glprograms s) ∧
    programs s' !! Shader.program S = Some P' ∧
    Program.glPrograms P' !! uid = Some r ∧
    (∀ uid', uid' ≠ uid →
       Program.glPrograms P' !! uid' = Program.glPrograms P !! uid') ∧
    (∀ p, p ≠ Shader.program S → programs s' !! p = programs s !! p) ∧
    this s' = this s ∧ groups s' = groups s ∧ shaders s' = shaders s.
Proof.
  intros HS HP Hgl Hc uid.
  rewrite (generateShader_eq _ _ _ _ _ _ HS HP Hgl Hc).
  exists (generated s gl h (Shader.program S) P), (fresh (dom (glprograms s))),
    (Program.set_glPrograms P
       (<[uid := fresh (dom (glprograms s))]> (Program.glPrograms P))).
  split; [done|]. simpl. split_and!; try done.
  - apply not_elem_of_dom. apply is_fresh.
  - by rewrite lookup_insert_eq.
  - by rewrite lookup_insert_eq.
  - intros uid' Hne. by rewrite lookup_insert_ne.
  - intros p Hne. by rewrite lookup_insert_ne.
Qed.

End GenerateShader.

Lemma generateShader_tables_witness :
  attribMap_of Scene.programB
  = (λ '(i, a), (i, location a)) <$> Program.attributeData Scene.programB ∧
  uniformData_of 5 514 Scene.programB
  = (λ '(i, d), (i, mkGLUniform (getUniformLocation 5 514 i)
                      (defaultValue (type d) (size d))))
    <$> Program.uniformData Scene.programB.
Proof.
  apply (generateShader_tables 5 514 Scene.programB).
  - apply (bool_decide_unpack _). vm_compute. exact I.
  - apply (bool_decide_unpack _). vm_compute. exact I.
Defined.

(** Program A is compiled already in [Scene.synced0]; [generateShader]
    compiles it again. *)
Lemma generateShader_always_compiles_witness :
  let P := Program.set_glPrograms Scene.programA {[1 := 0]} in
  ∃ s' r P',
    generateShader 0 Scene.synced0 = (s', [compile_call 5 P], inr r) ∧
    glprograms Scene.synced0 !! r = None ∧
    glprograms s'
    = <[r := GLProgram.mk 513 (uniformData_of 5 513 P) ∅]>
        (glprograms Scene.synced0) ∧
    programs s' !! 0 = Some P' ∧
    Program.glPrograms P' !! 1 = Some r ∧
    (∀ uid', uid' ≠ 1 →
       Program.glPrograms P' !! uid' = Program.glPrograms P !! uid') ∧
    (∀ p, p ≠ 0 → programs s' !! p = programs Scene.synced0 !! p) ∧
    this s' = this Scene.synced0 ∧ groups s' = groups Scene.synced0 ∧
    shaders s' = shaders Scene.synced0.
Proof.
  refine (generateShader_always_compiles Scene.synced0 0 (Shader.mk 0 0)
            (Program.set_glPrograms Scene.programA {[1 := 0]}) 5 513
            _ _ _ _).
  - reflexivity.
  - reflexivity.
  - reflexivity.
  - reflexivity.
Defined.

(** ** More on [bind] *)

Section BindMore.
Context {SyncFunc : Type} {U : Utils SyncFunc}.
Implicit Types (s : State SyncFunc) (cs : list (Call SyncFunc)).
Implicit Types (G : UniformGroup.t SyncFunc) (P : Program.t) (S : Shader.t).
Implicit Types (GLP : GLProgram.t).

(** [bind] up to the point where the GL program is resolved: the calls
    made so far ([pre]), the state reached ([sb]) and the GL program [r],
    found or made. *)
Lemma bind_split s sh S P G gl dontSync :
  store_ok s →
  shaders s !! sh = Some S →
  programs s !! Shader.program S = Some P →
  groups s !! Shader.uniformGroup S = Some G →
  ShaderSystem.gl (this s) = Some gl →
  (Program.glPrograms P !! Renderer.CONTEXT_UID (renderer s) = None →
   compiles gl P) →
  ∃ sb Pb GLP r pre,
    bind sh dontSync s = after pre (bind_rest sh S dontSync r sb) ∧
    shaders sb = shaders s ∧
    groups sb = <[Shader.uniformGroup S := with_globals s G]> (groups s) ∧
    this sb = this s ∧ renderer sb = renderer s ∧
    programs sb !! Shader.program S = Some Pb ∧
    Program.id Pb = Program.id P ∧
    Program.uniformData Pb = Program.uniformData P ∧
    Program.glPrograms Pb !! Renderer.CONTEXT_UID (renderer s) = Some r ∧
    glprograms sb !! r = Some GLP ∧
    ((pre = [] ∧
      Program.glPrograms P !! Renderer.CONTEXT_UID (renderer s) = Some r ∧
      glprograms s !! r = Some GLP) ∨
     (pre = [compile_call gl P] ∧
      Program.glPrograms P !! Renderer.CONTEXT_UID (renderer s) = None ∧
      GLProgram.uniformGroups GLP = ∅)).
Proof.
  intros Hok HS HP HG Hgl Hcomp.
  destruct (Program.glPrograms P !! Renderer.CONTEXT_UID (renderer s))
    as [r|] eqn:Hr.
  - destruct (store_ok_glprogram _ _ _ _ _ Hok HP Hr) as [GLP HGLP].
    exists (with_group s (Shader.uniformGroup S) (with_globals s G)), P, GLP,
      r, [].
    rewrite after_nil. split.
    { by eapply bind_hit. }
    split_and!; try done. left. done.
  - destruct (Hcomp eq_refl) as [h Hh].
    exists (generated
              (with_group s (Shader.uniformGroup S) (with_globals s G))
              gl h (Shader.program S) P),
      (Program.set_glPrograms P
         (<[Renderer.CONTEXT_UID (renderer s) := fresh (dom (glprograms s))]>
            (Program.glPrograms P))),
      (GLProgram.new h (uniformData_of gl h P)),
      (fresh (dom (glprograms s))), [compile_call gl P].
    split.
    { by apply bind_miss. }
    simpl. split_and!; try done.
    + by rewrite lookup_insert_eq.
    + by rewrite lookup_insert_eq.
    + by rewrite lookup_insert_eq.
    + right. done.
Qed.

Lemma sync_state_group s g r G GLP P :
  groups s !! g = Some G →
  (∃ G', groups (sync_state s g r G GLP P) !! g = Some G' ∧
         UniformGroup.uniforms G' = UniformGroup.uniforms G ∧
         UniformGroup.id G' = UniformGroup.id G ∧
         UniformGroup.static G' = UniformGroup.static G ∧
         UniformGroup.dirtyId G' = UniformGroup.dirtyId G) ∧
  (∀ g', g' ≠ g → groups (sync_state s g r G GLP P) !! g' = groups s !! g').
Proof.
  intros HG. unfold sync_state. destruct (up_to_date G GLP).
  { split; [by exists G|done]. }
  split.
  - destruct (synced_group_lookup (with_glprogram s r (recorded GLP G))
                g G P HG) as (G'&?&?&?&?&?).
    by exists G'.
  - intros g' Hne. unfold synced.
    destruct (UniformGroup.syncUniforms G !! Program.id P); [done|].
    simpl. rewrite lookup_insert_ne by done.
    by destruct (cached_frame (with_glprogram s r (recorded GLP G)) G P)
      as (_&_&->&_).
Qed.

Lemma filter_use_calls s gl GLP p :
  filter (λ c, is_UseProgram c = true) (use_calls s gl GLP p)
  = use_calls s gl GLP p.
Proof. unfold use_calls. by case_decide. Qed.

Lemma filter_sync_calls s g r G GLP P :
  filter (λ c, is_UseProgram c = true) (sync_calls s g r G GLP P) = [].
Proof. unfold sync_calls. by destruct (up_to_date G GLP). Qed.

(** X4.  A successful [bind] leaves in the shader's uniform group the
    renderer's global uniform group under the name [globals]: in place
    when the group had a member of that name, as last member otherwise.
    Every other member reads as before, the group's [dirtyId], [static]
    flag and [id] are unchanged (the write does not mark the group dirty),
    and no other group of the store changes. *)
Theorem bind_injects_globals s sh S P G gl dontSync :
  store_ok s →
  shaders s !! sh = Some S →
  programs s !! Shader.program S = Some P →
  groups s !! Shader.uniformGroup S = Some G →
  ShaderSystem.gl (this s) = Some gl →
  (Program.glPrograms P !! Renderer.CONTEXT_UID (renderer s) = None →
   compiles gl P) →
  let globals := UGroup (Renderer.globalUniforms (renderer s)) in
  ∃ s' cs r G',
    bind sh dontSync s = (s', cs, inr r) ∧
    groups s' !! Shader.uniformGroup S = Some G' ∧
    UniformGroup.uniforms G'
    = JSObject.set (UniformGroup.uniforms G) "globals" globals ∧
    JSObject.get (UniformGroup.uniforms G') "globals" = Some globals ∧
    (∀ k, k ≠ "globals"%string →
       JSObject.get (UniformGroup.uniforms G') k
       = JSObject.get (UniformGroup.uniforms G) k) ∧
    UniformGroup.dirtyId G' = UniformGroup.dirtyId G ∧
    UniformGroup.static G' = UniformGroup.static G ∧
    UniformGroup.id G' = UniformGroup.id G ∧
    (∀ g', g' ≠ Shader.uniformGroup S → groups s' !! g' = groups s !! g').
Proof.
  intros Hok HS HP HG Hgl Hcomp globals.
  destruct (bind_split s sh S P G gl dontSync Hok HS HP HG Hgl Hcomp)
    as (sb&Pb&GLP&r&pre&Hbind&Hshs&Hgrs&Hthis&Hre&HPb&_&_&Hr&HGLP&_).
  assert (HSb : shaders sb !! sh = Some S) by (by rewrite Hshs).
  assert (HGb : groups sb !! Shader.uniformGroup S = Some (with_globals s G))
    by (by rewrite Hgrs, lookup_insert_eq).
  assert (Hglb : ShaderSystem.gl (this sb) = Some gl) by (by rewrite Hthis).
  rewrite <-Hre in Hr.
  rewrite (bind_rest_eq _ _ _ _ _ _ _ _ dontSync HSb HPb HGb Hglb Hr HGLP)
    in Hbind.
  rewrite Hbind. unfold after, state_of, calls_of, outcome_of. simpl.
  set (st := tracking sb sh (Shader.program S)).
  assert (Hst : groups st !! Shader.uniformGroup S = Some (with_globals s G))
    by exact HGb.
  assert (Hfin : ∃ G',
    groups (if dontSync then st
            else sync_state st (Shader.uniformGroup S) r (with_globals s G)
                   GLP Pb) !! Shader.uniformGroup S = Some G' ∧
    UniformGroup.uniforms G' = UniformGroup.uniforms (with_globals s G) ∧
    UniformGroup.id G' = UniformGroup.id G ∧
    UniformGroup.static G' = UniformGroup.static G ∧
    UniformGroup.dirtyId G' = UniformGroup.dirtyId G).
  { destruct dontSync; [by eexists|].
    destruct (sync_state_group st (Shader.uniformGroup S) r
                (with_globals s G) GLP Pb Hst) as [(G'&?&?&?&?&?) _].
    by exists G'. }
  destruct Hfin as (G'&HG'&Hus&Hid&Hstat&Hdirty).
  eexists _, _, r, G'. split; [done|]. split; [exact HG'|].
  rewrite Hus. simpl. split_and!; try done.
  - apply get_set_eq.
  - intros k Hne. by apply get_set_ne.
  - intros g' Hne. destruct dontSync.
    + simpl. by rewrite Hgrs, lookup_insert_ne.
    + destruct (sync_state_group st (Shader.uniformGroup S) r
                  (with_globals s G) GLP Pb Hst) as [_ Hother].
      rewrite Hother by done. simpl. by rewrite Hgrs, lookup_insert_ne.
Qed.

(** The whole of a successful [bind], written out. *)
Lemma bind_explicit s sh S P G gl dontSync :
  store_ok s →
  shaders s !! sh = Some S →
  programs s !! Shader.program S = Some P →
  groups s !! Shader.uniformGroup S = Some G →
  ShaderSystem.gl (this s) = Some gl →
  (Program.glPrograms P !! Renderer.CONTEXT_UID (renderer s) = None →
   compiles gl P) →
  ∃ sb Pb GLP r pre,
    let st := tracking sb sh (Shader.program S) in
    let g := Shader.uniformGroup S in
    bind sh dontSync s
    = (if dontSync then st else sync_state st g r (with_globals s G) GLP Pb,
       pre ++ use_calls sb gl GLP (Shader.program S) ++
         (if dontSync then []
          else sync_calls st g r (with_globals s G) GLP Pb),
       inr r) ∧
    this sb = this s ∧
    glprograms sb !! r = Some GLP ∧
    programs sb !! Shader.program S = Some Pb ∧
    groups sb = <[Shader.uniformGroup S := with_globals s G]> (groups s) ∧
    ((pre = [] ∧
      Program.glPrograms P !! Renderer.CONTEXT_UID (renderer s) = Some r ∧
      glprograms s !! r = Some GLP) ∨
     (pre = [compile_call gl P] ∧
      Program.glPrograms P !! Renderer.CONTEXT_UID (renderer s) = None ∧
      GLProgram.uniformGroups GLP = ∅)).
Proof.
  intros Hok HS HP HG Hgl Hcomp.
  destruct (bind_split s sh S P G gl dontSync Hok HS HP HG Hgl Hcomp)
    as (sb&Pb&GLP&r&pre&Hbind&Hshs&Hgrs&Hthis&Hre&HPb&_&_&Hr&HGLP&Hpre).
  assert (HSb : shaders sb !! sh = Some S) by (by rewrite Hshs).
  assert (HGb : groups sb !! Shader.uniformGroup S = Some (with_globals s G))
    by (by rewrite Hgrs, lookup_insert_eq).
  assert (Hglb : ShaderSystem.gl (this sb) = Some gl) by (by rewrite Hthis).
  rewrite <-Hre in Hr.
  rewrite (bind_rest_eq _ _ _ _ _ _ _ _ dontSync HSb HPb HGb Hglb Hr HGLP)
    in Hbind.
  exists sb, Pb, GLP, r, pre. cbn zeta. by rewrite Hbind.
Qed.

(** X5.  What a successful [bind] uploads: nothing when [dontSync] is
    set; otherwise at most one call of the group's routine, and exactly
    one when the program had to be compiled (the new GL program has no
    group recorded, static or not) or when the group is not static. *)
Theorem bind_uploads s sh S P G gl dontSync :
  store_ok s →
  shaders s !! sh = Some S →
  programs s !! Shader.program S = Some P →
  groups s !! Shader.uniformGroup S = Some G →
  ShaderSystem.gl (this s) = Some gl →
  (Program.glPrograms P !! Renderer.CONTEXT_UID (renderer s) = None →
   compiles gl P) →
  ∃ s' cs r,
    bind sh dontSync s = (s', cs, inr r) ∧
    (dontSync = true → count is_upload cs = 0) ∧
    (count is_upload cs ≤ 1)%nat ∧
    (dontSync = false →
     Program.glPrograms P !! Renderer.CONTEXT_UID (renderer s) = None →
     count is_upload cs = 1) ∧
    (dontSync = false → UniformGroup.static G = false →
     count is_upload cs = 1).
Proof.
  intros Hok HS HP HG Hgl Hcomp.
  destruct (bind_explicit s sh S P G gl dontSync Hok HS HP HG Hgl Hcomp)
    as (sb&Pb&GLP&r&pre&Hbind&_&_&_&_&Hpre).
  cbn zeta in Hbind. rewrite Hbind. eexists _, _, _. split; [done|].
  rewrite !count_app.
  assert (count is_upload pre = 0) as ->.
  { by destruct Hpre as [(->&_)|(->&_)]. }
  assert (count is_upload (use_calls sb gl GLP (Shader.program S)) = 0)
    as ->.
  { unfold use_calls. by case_decide. }
  destruct dontSync; simpl.
  { split_and!; try done. unfold count. simpl. lia. }
  destruct (sync_calls_uploads (tracking sb sh (Shader.program S))
              (Shader.uniformGroup S) r (with_globals s G) GLP Pb)
    as (_&_&->).
  split_and!; try done.
  - case_match; lia.
  - intros _ Hnone. destruct Hpre as [(_&Hsome&_)|(_&_&Hempty)];
      [congruence|].
    unfold up_to_date. rewrite Hempty, lookup_empty.
    rewrite bool_decide_eq_false_2 by done. by rewrite andb_false_r.
  - intros _ Hstat. unfold up_to_date. simpl. by rewrite Hstat.
Qed.

(** X6.  When a successful [bind] switches programs, the one
    [useProgram] call it makes goes to the current WebGL context with the
    handle of the very GL program it returns; when the program is the
    tracked one it makes none. *)
Theorem bind_activates_returned_program s sh S P G gl dontSync :
  store_ok s →
  shaders s !! sh = Some S →
  programs s !! Shader.program S = Some P →
  groups s !! Shader.uniformGroup S = Some G →
  ShaderSystem.gl (this s) = Some gl →
  (Program.glPrograms P !! Renderer.CONTEXT_UID (renderer s) = None →
   compiles gl P) →
  ∃ s' cs r h,
    bind sh dontSync s = (s', cs, inr r) ∧
    GLProgram.program <$> glprograms s' !! r = Some h ∧
    filter (λ c, is_UseProgram c = true) cs
    = (if decide (program (this s) = Some (Shader.program S)) then []
       else [UseProgram gl h]).
Proof.
  intros Hok HS HP HG Hgl Hcomp.
  destruct (bind_explicit s sh S P G gl dontSync Hok HS HP HG Hgl Hcomp)
    as (sb&Pb&GLP&r&pre&Hbind&Hthis&HGLP&HPb&_&Hpre).
  cbn zeta in Hbind. rewrite Hbind.
  eexists _, _, r, (GLProgram.program GLP). split; [done|]. split.
  - destruct dontSync; simpl; [by rewrite HGLP|].
    unfold sync_state. destruct (up_to_date (with_globals s G) GLP).
    + simpl. by rewrite HGLP.
    + rewrite synced_glprograms. simpl. by rewrite lookup_insert_eq.
  - rewrite !filter_app, filter_use_calls.
    assert (filter (λ c, is_UseProgram c = true) pre = []) as ->.
    { by destruct Hpre as [(->&_)|(->&_)]. }
    assert (filter (λ c : Call SyncFunc, is_UseProgram c = true)
              (if dontSync then []
               else sync_calls (tracking sb sh (Shader.program S))
                      (Shader.uniformGroup S) r (with_globals s G) GLP Pb)
            = []) as ->.
    { destruct dontSync; [done|apply filter_sync_calls]. }
    rewrite app_nil_r. simpl. unfold use_calls. by rewrite Hthis.
Qed.

Lemma with_globals_twice s G :
  with_globals s (with_globals s G) = with_globals s G.
Proof.
  unfold with_globals, UniformGroup.set_uniforms. simpl. by rewrite set_set.
Qed.

(** X7.  When [compileProgram] throws, [bind] lets the exception through
    right after the one call to the compiler: no GL program is stored, no
    [useProgram] is issued and the tracked shader and program are what they
    were; only the injection of [globals] into the shader's group has
    happened.  Nothing remembers the failure: the same [bind] made again
    calls the compiler again and throws again. *)
Theorem bind_CompileError s sh S P G gl dontSync :
  shaders s !! sh = Some S →
  programs s !! Shader.program S = Some P →
  groups s !! Shader.uniformGroup S = Some G →
  ShaderSystem.gl (this s) = Some gl →
  Program.glPrograms P !! Renderer.CONTEXT_UID (renderer s) = None →
  compileProgram gl (Program.vertexSrc P) (Program.fragmentSrc P)
    (attribMap_of P) = None →
  let s1 := with_group s (Shader.uniformGroup S) (with_globals s G) in
  bind sh dontSync s = (s1, [compile_call gl P], inl CompileError) ∧
  this s1 = this s ∧ programs s1 = programs s ∧
  glprograms s1 = glprograms s ∧
  bind sh dontSync s1 = (s1, [compile_call gl P], inl CompileError).
Proof.
  intros HS HP HG Hgl Hr Hc s1.
  assert (Hthrow : ∀ s0 G0,
    shaders s0 !! sh = Some S → programs s0 !! Shader.program S = Some P →
    groups s0 !! Shader.uniformGroup S = Some G0 →
    ShaderSystem.gl (this s0) = Some gl →
    Program.glPrograms P !! Renderer.CONTEXT_UID (renderer s0) = None →
    bind sh dontSync s0
    = (with_group s0 (Shader.uniformGroup S) (with_globals s0 G0),
       [compile_call gl P], inl CompileError)).
  { intros s0 G0 HS0 HP0 HG0 Hgl0 Hr0. unfold bind. mrun.
    rewrite HS0. mrun. rewrite HG0. mrun. simpl. rewrite HP0. mrun. simpl.
    rewrite Hr0.
    by rewrite (seq_fail _ _ _ _ _ _
                  (generateShader_throws
                     (with_group s0 (Shader.uniformGroup S)
                        (with_globals s0 G0))
                     sh S P gl HS0 HP0 Hgl0 Hc)). }
  split; [by apply Hthrow|]. split_and!; try done.
  rewrite (Hthrow s1 (with_globals s G)); try done.
  - f_equal. f_equal. unfold s1, with_group. simpl.
    change (with_globals
              (mkState (shaders s) (programs s)
                 (<[Shader.uniformGroup S:=with_globals s G]> (groups s))
                 (glprograms s) (renderer s) (this s)))
      with (with_globals s).
    by rewrite with_globals_twice, insert_insert_eq.
  - simpl. by rewrite lookup_insert_eq.
Qed.

(** X8.  After [reset()] a [bind] of a shader whose program is compiled
    under the current context issues [useProgram] exactly once, also when
    that shader and program were the tracked ones before the reset, and it
    does not compile: it returns the GL program stored before. *)
Theorem bind_after_reset s sh S P gl r dontSync :
  store_ok s →
  shaders s !! sh = Some S →
  programs s !! Shader.program S = Some P →
  ShaderSystem.gl (this s) = Some gl →
  Program.glPrograms P !! Renderer.CONTEXT_UID (renderer s) = Some r →
  ∃ s' cs,
    bind sh dontSync (state_of (reset s)) = (s', cs, inr r) ∧
    count is_UseProgram cs = 1 ∧
    count is_CompileProgram cs = 0.
Proof.
  intros Hok HS HP Hgl Hr. rewrite reset_eq. unfold state_of. simpl.
  set (s0 := with_this s _).
  assert (Hok0 : store_ok s0) by exact Hok.
  destruct (bind_ok s0 sh S P gl dontSync Hok0 HS HP Hgl)
    as (s'&cs&r'&Hbind&Hpost&_).
  { simpl. intros Hnone. congruence. }
  pose proof (post_resolved _ _ _ _ _ _ _ _ Hpost) as Hres.
  pose proof (post_compile _ _ _ _ _ _ _ _ Hpost) as Hc.
  pose proof (post_use _ _ _ _ _ _ _ _ Hpost) as Hu.
  simpl in Hres, Hc, Hu. rewrite Hr in Hres, Hc. subst r'.
  by exists s', cs.
Qed.

(** X9.  After a successful [bind], [getglProgram] returns the GL program
    [bind] returned, without any call or change of state; once [reset] has
    run it returns [null] instead of throwing. *)
Theorem getglProgram_after_bind s sh S P gl dontSync :
  store_ok s →
  shaders s !! sh = Some S →
  programs s !! Shader.program S = Some P →
  ShaderSystem.gl (this s) = Some gl →
  (Program.glPrograms P !! Renderer.CONTEXT_UID (renderer s) = None →
   compiles gl P) →
  ∃ s' cs r,
    bind sh dontSync s = (s', cs, inr r) ∧
    getglProgram s' = (s', [], inr (Some r)) ∧
    getglProgram (state_of (reset s')) = (state_of (reset s'), [], inr None).
Proof.
  intros Hok HS HP Hgl Hcomp.
  destruct (bind_ok s sh S P gl dontSync Hok HS HP Hgl Hcomp)
    as (s'&cs&r&Hbind&Hpost&_).
  exists s', cs, r. split; [done|]. split; [|done].
  assert (HS' : shaders s' !! sh = Some S)
    by (by rewrite (post_shaders _ _ _ _ _ _ _ _ Hpost)).
  assert (HP' : programs s' !! Shader.program S
                = Some (Program.set_glPrograms P
                          (<[Renderer.CONTEXT_UID (renderer s) := r]>
                             (Program.glPrograms P)))).
  { rewrite (post_programs _ _ _ _ _ _ _ _ Hpost).
    by rewrite lookup_insert_eq. }
  rewrite (getglProgram_eq s' sh S _
             (post_shader _ _ _ _ _ _ _ _ Hpost) HS' HP').
  rewrite (post_renderer _ _ _ _ _ _ _ _ Hpost). simpl.
  by rewrite lookup_insert_eq.
Qed.

End BindMore.

Lemma bind_injects_globals_witness :
  let G := Scene.group 20 true [("uColor", UArray [1; 1; 1; 1]%Z)] in
  ∃ s' cs r G',
    bind 0 false Scene.initial = (s', cs, inr r) ∧
    groups s' !! 0 = Some G' ∧
    UniformGroup.uniforms G'
    = JSObject.set (UniformGroup.uniforms G) "globals" (UGroup 9) ∧
    JSObject.get (UniformGroup.uniforms G') "globals" = Some (UGroup 9) ∧
    (∀ k, k ≠ "globals"%string →
       JSObject.get (UniformGroup.uniforms G') k
       = JSObject.get (UniformGroup.uniforms G) k) ∧
    UniformGroup.dirtyId G' = UniformGroup.dirtyId G ∧
    UniformGroup.static G' = UniformGroup.static G ∧
    UniformGroup.id G' = UniformGroup.id G ∧
    (∀ g', g' ≠ 0 → groups s' !! g' = groups Scene.initial !! g').
Proof.
  refine (bind_injects_globals Scene.initial 0 (Shader.mk 0 0)
            Scene.programA
            (Scene.group 20 true [("uColor", UArray [1; 1; 1; 1]%Z)])
            5 false _ _ _ _ _ _).
  - apply (bool_decide_unpack _). vm_compute. exact I.
  - reflexivity.
  - reflexivity.
  - reflexivity.
  - reflexivity.
  - intros _. eexists; reflexivity.
Defined.

Lemma bind_uploads_witness :
  ∃ s' cs r,
    bind 0 false Scene.initial = (s', cs, inr r) ∧
    (false = true → count is_upload cs = 0) ∧
    (count is_upload cs ≤ 1)%nat ∧
    (false = false →
     Program.glPrograms Scene.programA !! 1 = None →
     count is_upload cs = 1) ∧
    (false = false →
     UniformGroup.static
       (Scene.group 20 true [("uColor", UArray [1; 1; 1; 1]%Z)]) = false →
     count is_upload cs = 1).
Proof.
  refine (bind_uploads Scene.initial 0 (Shader.mk 0 0) Scene.programA
            (Scene.group 20 true [("uColor", UArray [1; 1; 1; 1]%Z)])
            5 false _ _ _ _ _ _).
  - apply (bool_decide_unpack _). vm_compute. exact I.
  - reflexivity.
  - reflexivity.
  - reflexivity.
  - reflexivity.
  - intros _. eexists; reflexivity.
Defined.

Lemma bind_activates_returned_program_witness :
  ∃ s' cs r h,
    bind 2 true Scene.synced0 = (s', cs, inr r) ∧
    GLProgram.program <$> glprograms s' !! r = Some h ∧
    filter (λ c, is_UseProgram c = true) cs
    = (if decide (program (this Scene.synced0) = Some 1) then []
       else [UseProgram 5 h]).
Proof.
  refine (bind_activates_returned_program Scene.synced0 2 (Shader.mk 1 2)
            Scene.programB
            (Scene.group 22 true
               [("uTint", UArray [1; 0; 0; 1]%Z); ("uAlpha", UNumber 1)])
            5 true _ _ _ _ _ _).
  - apply (bool_decide_unpack _). vm_compute. exact I.
  - reflexivity.
  - reflexivity.
  - reflexivity.
  - reflexivity.
  - intros _. eexists; reflexivity.
Defined.

Lemma bind_CompileError_witness :
  let G := Scene.group 40 false [("uColor", UArray [1; 1; 1; 1]%Z)] in
  let s1 := with_group Faulty.initial 0 (with_globals Faulty.initial G) in
  bind (U := Faulty.utils) 0 false Faulty.initial
  = (s1, [compile_call 5 Faulty.programC],
     inl CompileError) ∧
  this s1 = this Faulty.initial ∧ programs s1 = programs Faulty.initial ∧
  glprograms s1 = glprograms Faulty.initial ∧
  bind (U := Faulty.utils) 0 false s1
  = (s1, [compile_call 5 Faulty.programC],
     inl CompileError).
Proof.
  refine (bind_CompileError (U := Faulty.utils) Faulty.initial 0
            (Shader.mk 0 0) Faulty.programC
            (Scene.group 40 false [("uColor", UArray [1; 1; 1; 1]%Z)])
            5 false _ _ _ _ _ _).
  - reflexivity.
  - reflexivity.
  - reflexivity.
  - reflexivity.
  - reflexivity.
  - reflexivity.
Defined.

(** Shader [0] and program [0] are the tracked ones in [Scene.synced0]. *)
Lemma bind_after_reset_witness :
  ∃ s' cs,
    bind 0 false (state_of (reset Scene.synced0)) = (s', cs, inr 0) ∧
    count is_UseProgram cs = 1 ∧
    count is_CompileProgram cs = 0.
Proof.
  refine (bind_after_reset Scene.synced0 0 (Shader.mk 0 0)
            (Program.set_glPrograms Scene.programA {[1 := 0]}) 5 0 false
            _ _ _ _ _).
  - apply (bool_decide_unpack _). vm_compute. exact I.
  - reflexivity.
  - reflexivity.
  - reflexivity.
  - reflexivity.
Defined.

Lemma getglProgram_after_bind_witness :
  ∃ s' cs r,
    bind 2 false Scene.synced0 = (s', cs, inr r) ∧
    getglProgram s' = (s', [], inr (Some r)) ∧
    getglProgram (state_of (reset s')) = (state_of (reset s'), [], inr None).
Proof.
  refine (getglProgram_after_bind Scene.synced0 2 (Shader.mk 1 2)
            Scene.programB 5 false _ _ _ _ _).
  - apply (bool_decide_unpack _). vm_compute. exact I.
  - reflexivity.
  - reflexivity.
  - reflexivity.
  - intros _. eexists; reflexivity.
Defined.

(** ** More on synchronisation *)

Section SyncMore.
Context {SyncFunc : Type} {U : Utils SyncFunc}.
Implicit Types (s : State SyncFunc) (cs : list (Call SyncFunc)).
Implicit Types (G : UniformGroup.t SyncFunc) (P : Program.t) (S : Shader.t).
Implicit Types (GLP : GLProgram.t).

(** After [syncUniforms] the group holds, under the program's id, the
    routine that was called. *)
Lemma synced_routine s g G P :
  groups s !! g = Some G →
  ∃ G', groups (synced s g G P) !! g = Some G' ∧
        UniformGroup.syncUniforms G' !! Program.id P
        = Some (syncFunc_of s G P) ∧
        (∀ pid, pid ≠ Program.id P →
           UniformGroup.syncUniforms G' !! pid
           = UniformGroup.syncUniforms G !! pid) ∧
        UniformGroup.uniforms G' = UniformGroup.uniforms G ∧
        UniformGroup.id G' = UniformGroup.id G ∧
        UniformGroup.static G' = UniformGroup.static G ∧
        UniformGroup.dirtyId G' = UniformGroup.dirtyId G.
Proof.
  intros HG. unfold synced, syncFunc_of.
  destruct (UniformGroup.syncUniforms G !! Program.id P) as [f|] eqn:Hf.
  - by exists G.
  - eexists. simpl. rewrite lookup_insert_eq. split; [done|]. simpl.
    rewrite lookup_insert_eq. split_and!; try done.
    intros pid Hne. by rewrite lookup_insert_ne.
Qed.

(** X10.  With no shader bound, [syncUniformGroup], [syncUniforms] and
    [createSyncGroups] throw a [TypeError] whatever the group is, static or
    not, and do nothing else: no call, no change of state. *)
Theorem sync_unbound_throws s g r :
  shader (this s) = None →
  syncUniformGroup g s = (s, [], inl TypeError) ∧
  syncUniforms g r s = (s, [], inl TypeError) ∧
  createSyncGroups g s = (s, [], inl TypeError).
Proof.
  intros Hsh. pose proof (bound_program_unbound s Hsh) as Hbp. split_and!.
  - unfold syncUniformGroup, getglProgram. mrun. rewrite Hsh. mrun.
    destruct (groups s !! g) as [G|]; mrun; [|done].
    by destruct (UniformGroup.static G); simpl; mrun.
  - unfold syncUniforms. mrun.
    destruct (groups s !! g) as [G|]; mrun; [|done].
    by rewrite (seq_fail _ _ _ _ _ _ Hbp).
  - unfold createSyncGroups. mrun. by rewrite (seq_fail _ _ _ _ _ _ Hbp).
Qed.

(** X11.  A shader is bound, but its program has no GL program under the
    renderer's current context uid (the uid moved on and nothing was bound
    since).  Then [syncUniformGroup] and [setUniforms] throw a [TypeError]
    and do nothing else: they do not compile. *)
Theorem stale_context_throws s sh S P g uniforms :
  shader (this s) = Some sh →
  shaders s !! sh = Some S →
  programs s !! Shader.program S = Some P →
  Program.glPrograms P !! Renderer.CONTEXT_UID (renderer s) = None →
  syncUniformGroup g s = (s, [], inl TypeError) ∧
  setUniforms uniforms s = (s, [], inl TypeError).
Proof.
  intros Hsh HS HP Hr. split.
  - unfold syncUniformGroup. mrun.
    rewrite (seq_pure _ _ _ _ (getglProgram_eq _ _ _ _ Hsh HS HP)). mrun.
    rewrite Hr. destruct (groups s !! g) as [G|]; mrun; [|done].
    by destruct (UniformGroup.static G); simpl; mrun.
  - unfold setUniforms. mrun.
    rewrite (seq_pure _ _ _ _ (bound_program_eq _ _ _ _ Hsh HS HP)). mrun.
    rewrite Hr. by mrun.
Qed.

(** X12.  A group that is not static is uploaded by every
    [syncUniformGroup], whether or not its [dirtyId] is the recorded one:
    two calls in a row call the same routine twice. *)
Theorem syncUniformGroup_non_static_twice s g r G sh S P GLP :
  shader (this s) = Some sh →
  shaders s !! sh = Some S →
  programs s !! Shader.program S = Some P →
  Program.glPrograms P !! Renderer.CONTEXT_UID (renderer s) = Some r →
  glprograms s !! r = Some GLP →
  groups s !! g = Some G →
  UniformGroup.static G = false →
  ∃ s1 s2 f,
    syncUniformGroup g s = (s1, [SyncFuncCall f r g], inr ()) ∧
    syncUniformGroup g s1 = (s2, [SyncFuncCall f r g], inr ()) ∧
    count is_upload
      (calls_of (syncUniformGroup g s) ++ calls_of (syncUniformGroup g s1))
    = 2.
Proof.
  intros Hsh HS HP Hr HGLP HG Hst.
  assert (Hup : ∀ G0 GLP0, UniformGroup.static G0 = false →
                           up_to_date G0 GLP0 = false).
  { intros G0 GLP0 H0. unfold up_to_date. by rewrite H0. }
  pose proof (syncUniformGroup_dirty _ _ _ _ _ _ _ _
                Hsh HS HP Hr HGLP HG (Hup _ _ Hst)) as Hfirst.
  set (s0 := with_glprogram s r (recorded GLP G)) in *.
  assert (HG0 : groups s0 !! g = Some G) by done.
  destruct (synced_routine s0 g G P HG0) as (G1&HG1&Hf1&_&_&_&Hst1&_).
  destruct (synced_frame s0 g G P HG0) as (Hshs&Hprs&Hre&_&Hshd&_&_&_).
  assert (HGLP1 : glprograms (synced s0 g G P) !! r = Some (recorded GLP G)).
  { rewrite synced_glprograms. simpl. by rewrite lookup_insert_eq. }
  assert (Hsecond :
    syncUniformGroup g (synced s0 g G P)
    = (synced (with_glprogram (synced s0 g G P) r
                 (recorded (recorded GLP G) G1)) g G1 P,
       [SyncFuncCall (syncFunc_of (synced s0 g G P) G1 P) r g], inr ())).
  { eapply (syncUniformGroup_dirty _ g r G1 sh S P (recorded GLP G)).
    - by rewrite Hshd.
    - by rewrite Hshs.
    - by rewrite Hprs.
    - by rewrite Hre.
    - done.
    - done.
    - apply Hup. by rewrite Hst1. }
  assert (Hsame : syncFunc_of (synced s0 g G P) G1 P = syncFunc_of s G P).
  { unfold syncFunc_of at 1. by rewrite Hf1. }
  rewrite Hsame in Hsecond.
  eexists _, _, (syncFunc_of s G P). rewrite Hfirst, Hsecond.
  by split_and!.
Qed.

(** X13.  Once a group holds a routine for a program, that routine is
    what [syncUniformGroup] calls from then on, whatever becomes of the
    group: after a first synchronisation, replace the group's members by
    any others and its [dirtyId] by another value; the next
    [syncUniformGroup] calls the routine of the first synchronisation, and
    the cache of routines is not written. *)
Theorem routine_survives_mutation s g r G sh S P GLP :
  shader (this s) = Some sh →
  shaders s !! sh = Some S →
  programs s !! Shader.program S = Some P →
  Program.glPrograms P !! Renderer.CONTEXT_UID (renderer s) = Some r →
  glprograms s !! r = Some GLP →
  groups s !! g = Some G →
  up_to_date G GLP = false →
  ∃ s1 f G1,
    syncUniformGroup g s = (s1, [SyncFuncCall f r g], inr ()) ∧
    groups s1 !! g = Some G1 ∧
    ∀ us' d', d' ≠ UniformGroup.dirtyId G →
      ∃ s2,
        syncUniformGroup g
          (with_group s1 g
             (UniformGroup.mk us' (UniformGroup.id G1)
                (UniformGroup.static G1) d' (UniformGroup.syncUniforms G1)))
        = (s2, [SyncFuncCall f r g], inr ()) ∧
        cache (this s2) = cache (this s1).
Proof.
  intros Hsh HS HP Hr HGLP HG Hup.
  pose proof (syncUniformGroup_dirty _ _ _ _ _ _ _ _
                Hsh HS HP Hr HGLP HG Hup) as Hfirst.
  set (s0 := with_glprogram s r (recorded GLP G)) in *.
  assert (HG0 : groups s0 !! g = Some G) by done.
  destruct (synced_routine s0 g G P HG0) as (G1&HG1&Hf1&_&_&Hid1&_&_).
  destruct (synced_frame s0 g G P HG0) as (Hshs&Hprs&Hre&_&Hshd&_&_&_).
  exists (synced s0 g G P), (syncFunc_of s G P), G1.
  split; [done|]. split; [done|]. intros us' d' Hd'.
  set (G2 := UniformGroup.mk us' _ _ d' _).
  set (s1' := with_group (synced s0 g G P) g G2).
  assert (Hup2 : up_to_date G2 (recorded GLP G) = false).
  { unfold up_to_date. simpl. rewrite Hid1, lookup_insert_eq.
    rewrite bool_decide_eq_false_2 by congruence. apply andb_false_r. }
  assert (Hdirty : syncUniformGroup g s1'
    = (synced (with_glprogram s1' r (recorded (recorded GLP G) G2)) g G2 P,
       [SyncFuncCall (syncFunc_of s1' G2 P) r g], inr ())).
  { eapply (syncUniformGroup_dirty s1' g r G2 sh S P (recorded GLP G)).
    - simpl. by rewrite Hshd.
    - simpl. by rewrite Hshs.
    - simpl. by rewrite Hprs.
    - simpl. by rewrite Hre.
    - simpl. rewrite synced_glprograms. simpl. by rewrite lookup_insert_eq.
    - simpl. by rewrite lookup_insert_eq.
    - done. }
  eexists. rewrite Hdirty. split.
  - unfold syncFunc_of at 1. simpl. by rewrite Hf1.
  - unfold synced at 1. simpl. by rewrite Hf1.
Qed.


(** X15.  The cache of routines is keyed by the signature alone.  Two
    groups with the same signature under the bound program, neither
    synchronised under it yet and the cache having no routine for the
    signature: [syncUniforms] of the first generates a routine from the
    first group, and [syncUniforms] of the second calls that same routine;
    nothing is generated from the second group. *)
Theorem routine_shared_by_signature s g1 g2 r G1 G2 sh S P GLP :
  shader (this s) = Some sh →
  shaders s !! sh = Some S →
  programs s !! Shader.program S = Some P →
  glprograms s !! r = Some GLP →
  g1 ≠ g2 →
  groups s !! g1 = Some G1 →
  groups s !! g2 = Some G2 →
  getSignature G1 (Program.uniformData P)
  = getSignature G2 (Program.uniformData P) →
  cache (this s) !! getSignature G1 (Program.uniformData P) = None →
  UniformGroup.syncUniforms G1 !! Program.id P = None →
  UniformGroup.syncUniforms G2 !! Program.id P = None →
  let f := generateUniformsSync G1 (Program.uniformData P) in
  ∃ s1 s2,
    syncUniforms g1 r s = (s1, [SyncFuncCall f r g1], inr ()) ∧
    syncUniforms g2 r s1 = (s2, [SyncFuncCall f r g2], inr ()).
Proof.
  intros Hsh HS HP HGLP Hne HG1 HG2 Hsig Hc Hf1 Hf2 f.
  rewrite (syncUniforms_miss _ _ _ _ _ _ _ _ Hsh HS HP HG1 HGLP Hf1).
  assert (Hr1 : routine_for s G1 P = f).
  { unfold routine_for. by rewrite Hc. }
  rewrite Hr1.
  set (s1 := with_group (cached s G1 P) g1 (attached G1 P f)).
  destruct (cached_frame s G1 P) as (Hshs&Hprs&Hgrs&Hgls&_&_&Hshd&_).
  assert (HG2' : groups s1 !! g2 = Some G2).
  { simpl. rewrite lookup_insert_ne by done. by rewrite Hgrs. }
  assert (Hsecond : syncUniforms g2 r s1
    = (with_group (cached s1 G2 P) g2 (attached G2 P (routine_for s1 G2 P)),
       [SyncFuncCall (routine_for s1 G2 P) r g2], inr ())).
  { eapply syncUniforms_miss; try done; simpl.
    - by rewrite Hshd.
    - by rewrite Hshs.
    - by rewrite Hprs.
    - by rewrite Hgls. }
  assert (Hr2 : routine_for s1 G2 P = f).
  { unfold routine_for. simpl. rewrite <-Hsig.
    pose proof (cached_lookup s G1 P) as Hl. rewrite Hr1 in Hl.
    by rewrite Hl. }
  rewrite Hr2 in Hsecond. eexists _, _. split; [done|exact Hsecond].
Qed.


End SyncMore.

Lemma sync_unbound_throws_witness :
  syncUniformGroup 0 Scene.initial = (Scene.initial, [], inl TypeError) ∧
  syncUniforms 0 0 Scene.initial = (Scene.initial, [], inl TypeError) ∧
  createSyncGroups 0 Scene.initial = (Scene.initial, [], inl TypeError).
Proof. apply (sync_unbound_throws Scene.initial 0 0). reflexivity. Defined.

Lemma stale_context_throws_witness :
  syncUniformGroup 0 Scene.restored = (Scene.restored, [], inl TypeError) ∧
  setUniforms [("uColor", UNumber 1)] Scene.restored
  = (Scene.restored, [], inl TypeError).
Proof.
  refine (stale_context_throws Scene.restored 0 (Shader.mk 0 0)
            (Program.set_glPrograms Scene.programA {[1 := 0]}) 0
            [("uColor", UNumber 1)] _ _ _ _).
  - reflexivity.
  - reflexivity.
  - reflexivity.
  - reflexivity.
Defined.

Lemma syncUniformGroup_non_static_twice_witness :
  ∃ s1 s2 f,
    syncUniformGroup 1 Scene.bound0 = (s1, [SyncFuncCall f 0 1], inr ()) ∧
    syncUniformGroup 1 s1 = (s2, [SyncFuncCall f 0 1], inr ()) ∧
    count is_upload
      (calls_of (syncUniformGroup 1 Scene.bound0)
       ++ calls_of (syncUniformGroup 1 s1))
    = 2.
Proof.
  refine (syncUniformGroup_non_static_twice Scene.bound0 1 0
            (Scene.group 21 false [("uColor", UArray [0; 0; 0; 1]%Z)])
            0 (Shader.mk 0 0)
            (Program.set_glPrograms Scene.programA {[1 := 0]})
            (GLProgram.mk 513
               [("uColor", mkGLUniform (Some 6) (UNumber 0))] ∅)
            _ _ _ _ _ _ _).
  - reflexivity.
  - reflexivity.
  - reflexivity.
  - reflexivity.
  - reflexivity.
  - reflexivity.
  - reflexivity.
Defined.

Lemma routine_survives_mutation_witness :
  let G :=
    UniformGroup.mk
      [("uColor", UArray [1; 1; 1; 1]%Z); ("globals", UGroup 9)]
      20 true 0%Z (∅ : gmap nat (list string)) in
  ∃ s1 f G1,
    syncUniformGroup 0 Scene.bound0 = (s1, [SyncFuncCall f 0 0], inr ()) ∧
    groups s1 !! 0 = Some G1 ∧
    ∀ us' d', d' ≠ UniformGroup.dirtyId G →
      ∃ s2,
        syncUniformGroup 0
          (with_group s1 0
             (UniformGroup.mk us' (UniformGroup.id G1)
                (UniformGroup.static G1) d' (UniformGroup.syncUniforms G1)))
        = (s2, [SyncFuncCall f 0 0], inr ()) ∧
        cache (this s2) = cache (this s1).
Proof.
  refine (routine_survives_mutation Scene.bound0 0 0
            (UniformGroup.mk
               [("uColor", UArray [1; 1; 1; 1]%Z); ("globals", UGroup 9)]
               20 true 0 ∅)
            0 (Shader.mk 0 0)
            (Program.set_glPrograms Scene.programA {[1 := 0]})
            (GLProgram.mk 513
               [("uColor", mkGLUniform (Some 6) (UNumber 0))] ∅)
            _ _ _ _ _ _ _).
  - reflexivity.
  - reflexivity.
  - reflexivity.
  - reflexivity.
  - reflexivity.
  - reflexivity.
  - reflexivity.
Defined.


(** The group with the one member [uColor-vec4] is synchronised with the
    routine generated for the member [uColor] of type [vec4]. *)
Lemma routine_shared_by_signature_witness :
  let P := Program.set_glPrograms Scene.programA {[1 := 0]} in
  let f := generateUniformsSync Collide.plain (Program.uniformData P) in
  ∃ s1 s2,
    syncUniforms 3 0 Collide.bound = (s1, [SyncFuncCall f 0 3], inr ()) ∧
    syncUniforms 4 0 s1 = (s2, [SyncFuncCall f 0 4], inr ()).
Proof.
  refine (routine_shared_by_signature Collide.bound 3 4 0
            Collide.plain Collide.dashed 0 (Shader.mk 0 0)
            (Program.set_glPrograms Scene.programA {[1 := 0]})
            (GLProgram.mk 513
               [("uColor", mkGLUniform (Some 6) (UNumber 0))] ∅)
            _ _ _ _ _ _ _ _ _ _ _).
  - reflexivity.
  - reflexivity.
  - reflexivity.
  - reflexivity.
  - lia.
  - reflexivity.
  - reflexivity.
  - reflexivity.
  - reflexivity.
  - reflexivity.
  - reflexivity.
Defined.


(** ** Binding the same shader again; identifiers *)

Section Rebind.
Context {SyncFunc : Type} {U : Utils SyncFunc}.
Implicit Types (s : State SyncFunc) (cs : list (Call SyncFunc)).
Implicit Types (G : UniformGroup.t SyncFunc) (P : Program.t) (S : Shader.t).
Implicit Types (GLP : GLProgram.t).

(** After [syncUniformGroup] the group's [dirtyId] is the recorded one. *)
Lemma sync_state_record s g r G GLP P :
  glprograms s !! r = Some GLP →
  ∃ GLP', glprograms (sync_state s g r G GLP P) !! r = Some GLP' ∧
          GLProgram.uniformGroups GLP' !! UniformGroup.id G
          = Some (UniformGroup.dirtyId G).
Proof.
  intros HGLP. unfold sync_state.
  destruct (up_to_date G GLP) eqn:Hup.
  - exists GLP. split; [done|].
    apply andb_true_iff in Hup as [_ Hrec].
    by apply bool_decide_eq_true in Hrec.
  - exists (recorded GLP G). rewrite synced_glprograms. simpl.
    by rewrite !lookup_insert_eq.
Qed.

(** X17.  Binding a shader whose uniform group is static, with
    synchronisation, and then binding it again, nothing having changed in
    between, costs nothing the second time: the second [bind] makes no call
    at all (no compilation, no [useProgram], no upload) and returns the
    same GL program. *)
Theorem bind_again_static s sh S P G gl :
  store_ok s →
  shaders s !! sh = Some S →
  programs s !! Shader.program S = Some P →
  groups s !! Shader.uniformGroup S = Some G →
  ShaderSystem.gl (this s) = Some gl →
  (Program.glPrograms P !! Renderer.CONTEXT_UID (renderer s) = None →
   compiles gl P) →
  UniformGroup.static G = true →
  ∃ s1 cs r s2,
    bind sh false s = (s1, cs, inr r) ∧
    bind sh false s1 = (s2, [], inr r).
Proof.
  intros Hok HS HP HG Hgl Hcomp Hstat.
  destruct (bind_ok s sh S P gl false Hok HS HP Hgl Hcomp)
    as (s1&cs&r&Hbind&Hpost&Hok1).
  destruct (bind_explicit s sh S P G gl false Hok HS HP HG Hgl Hcomp)
    as (sb&Pb&GLP&r0&pre&Hexp&Hthis&HGLP&HPb&Hgrs&Hpre).
  cbn zeta in Hexp. rewrite Hbind in Hexp. simplify_eq.
  set (st := tracking sb sh (Shader.program S)) in *.
  set (g := Shader.uniformGroup S) in *.
  set (s1 := sync_state st g r0 (with_globals s G) GLP Pb) in *.
  (* the group and its record after the first bind *)
  assert (Hst : groups st !! g = Some (with_globals s G)).
  { simpl. by rewrite Hgrs, lookup_insert_eq. }
  destruct (sync_state_group st g r0 (with_globals s G) GLP Pb Hst)
    as [(G1&HG1&_&Hid1&Hst1&Hd1) _].
  fold s1 in HG1. simpl in Hid1, Hst1, Hd1.
  destruct (sync_state_record st g r0 (with_globals s G) GLP Pb HGLP)
    as (GLP1&HGLP1&Hrec1).
  fold s1 in HGLP1. simpl in Hrec1.
  set (P1 := Program.set_glPrograms P
               (<[Renderer.CONTEXT_UID (renderer s) := r0]>
                  (Program.glPrograms P))).
  assert (HS1 : shaders s1 !! sh = Some S)
    by (by rewrite (post_shaders _ _ _ _ _ _ _ _ Hpost)).
  assert (HP1 : programs s1 !! Shader.program S = Some P1).
  { rewrite (post_programs _ _ _ _ _ _ _ _ Hpost).
    by rewrite lookup_insert_eq. }
  assert (Hgl1 : ShaderSystem.gl (this s1) = Some gl)
    by (by rewrite (post_gl _ _ _ _ _ _ _ _ Hpost)).
  assert (Hr1 : Program.glPrograms P1 !! Renderer.CONTEXT_UID (renderer s1)
                = Some r0).
  { rewrite (post_renderer _ _ _ _ _ _ _ _ Hpost). simpl.
    by rewrite lookup_insert_eq. }
  destruct (bind_explicit s1 sh S P1 G1 gl false Hok1 HS1 HP1 HG1 Hgl1)
    as (sb2&Pb2&GLP2&r2&pre2&Hexp2&Hthis2&HGLP2&HPb2&_&Hpre2).
  { intros Hnone. congruence. }
  cbn zeta in Hexp2.
  destruct Hpre2 as [(->&Hr2&HGLP2')|(_&Hnone&_)]; [|congruence].
  assert (r2 = r0) as -> by congruence.
  assert (GLP2 = GLP1) as -> by congruence.
  eexists s1, _, r0, _. split; [exact Hbind|]. rewrite Hexp2.
  f_equal. f_equal. simpl.
  assert (use_calls sb2 gl GLP1 (Shader.program S) = []) as ->.
  { unfold use_calls. rewrite Hthis2.
    by rewrite (post_program _ _ _ _ _ _ _ _ Hpost), decide_True. }
  unfold sync_calls.
  assert (up_to_date (with_globals s1 G1) GLP1 = true) as ->; [|done].
  unfold up_to_date. simpl. rewrite Hst1, Hstat, Hid1, Hd1. simpl.
  by apply bool_decide_eq_true.
Qed.

(** X18.  On a platform that allows [new Function], [n] systems
    constructed one after the other from the module counter [UID] get the
    ids [UID], [UID + 1], ..., [UID + n - 1], all different, and leave the
    counter at [UID + n]. *)
Theorem constructors_ids (n UID : nat) :
  unsafeEvalSupported = true →
  id <$> (constructors n UID).1 = List.seq UID n ∧
  (constructors n UID).2 = UID + n ∧
  NoDup (id <$> (constructors n UID).1).
Proof.
  intros Hyes.
  assert (Hids : id <$> (constructors n UID).1 = List.seq UID n ∧
                 (constructors n UID).2 = UID + n).
  { revert UID. induction n as [|n IH]; intros UID; simpl.
    - split; [done|lia].
    - rewrite (constructor_supported UID Hyes).
      destruct (IH (Datatypes.S UID)) as [Hl Hc].
      destruct (constructors n (Datatypes.S UID)) as [Ts UID'']. simpl in *.
      split; [f_equal; exact Hl|lia]. }
  destruct Hids as [Hl Hc]. split_and!; try done.
  rewrite Hl. apply NoDup_seq.
Qed.

End Rebind.

Lemma bind_again_static_witness :
  ∃ s1 cs r s2,
    bind 0 false Scene.initial = (s1, cs, inr r) ∧
    bind 0 false s1 = (s2, [], inr r).
Proof.
  refine (bind_again_static Scene.initial 0 (Shader.mk 0 0) Scene.programA
            (Scene.group 20 true [("uColor", UArray [1; 1; 1; 1]%Z)])
            5 _ _ _ _ _ _ _).
  - apply (bool_decide_unpack _). vm_compute. exact I.
  - reflexivity.
  - reflexivity.
  - reflexivity.
  - reflexivity.
  - intros _. eexists; reflexivity.
  - reflexivity.
Defined.

Lemma constructors_ids_witness :
  id <$> (constructors (U := Scene.utils) 3 4).1 = List.seq 4 3 ∧
  (constructors (U := Scene.utils) 3 4).2 = 4 + 3 ∧
  NoDup (id <$> (constructors (U := Scene.utils) 3 4).1).
Proof. apply (constructors_ids (U := Scene.utils) 3 4). reflexivity. Defined.
